(** * pachyderm: directory tree to lazily-loaded [index.js]

    A shallow embedding of [src/index.js] and the properties of its core:
    the tree builder ([filenameToJson], [attachFilenameToLeafNode],
    [handleConflicts]), the deterministic serializer ([sortJson]), the
    lazy-binding rewriter ([convertToLazyRequireJson]) and the default
    eligibility predicate ([shouldBeIndexed]).

    Modelling conventions.
    - A JavaScript string is a [string]: a sequence of code units, here
      restricted to the 8-bit range.  Comparison is by code unit, as
      [Array.prototype.sort] without a comparator does.
    - A JavaScript value is [undefined], a number, a string or a plain object.
      A tree holds namespace nodes (objects) and leaves (strings); a number
      only arises as the [length] of a string.
      An object is the list of its own properties in enumeration order
      (ECMAScript OrdinaryOwnPropertyKeys: array-index keys in ascending
      numeric order, then the other string keys in creation order).
    - Property reads consult own properties only (for strings: [length] and
      the character indices), an assignment on an object always stores an
      own property, and a namespace node converts to the string
      [[object Object]].  The code departs from this where a key names a
      member inherited from [Object.prototype] or [String.prototype]: a read
      of [constructor] finds the inherited function, an assignment to
      [__proto__] stores no property, and a node that owns [toString] cannot
      be converted to a string.  Such keys are outside the model.  A
      general property that would not hold of the code on such keys carries
      a hypothesis that keeps them out ([plain_key], [plain_tree],
      [proto_free], [plain_insertion], [plain_files]); the hypothesis
      delimits the inputs on which the embedding follows the code, and the
      proofs do not need it.
    - The module is not in strict mode, so a property write on a primitive is
      silently dropped, while any property access on [undefined] throws a
      [TypeError].
    - The builder mutates one shared tree in place.  The only value ever
      stored under two keys is a string, which is immutable, so no two keys
      alias one object and in-place mutation is rendered by passing the tree
      through each function and writing a mutated child back at its key. *)

From Stdlib Require Import String Ascii List Bool NArith ZArith Lia.
From Stdlib Require Import DecimalString OrderedTypeEx Permutation.
Import ListNotations.
Local Open Scope list_scope.
Local Open Scope string_scope.

(** ** Strings *)

(** [s.slice(start, stop)]; [stop] is [None] when the argument is omitted. *)
Definition slice (s : string) (start : Z) (stop : option Z) : string :=
  let len := Z.of_nat (String.length s) in
  let clamp i := if (i <? 0)%Z then Z.max (len + i) 0 else Z.min i len in
  let from := clamp start in
  let to := match stop with Some e => clamp e | None => len end in
  substring (Z.to_nat from) (Z.to_nat (Z.max (to - from) 0)) s.

(** [s.split(sep)] for a one-character separator such as [path.sep]. *)
Fixpoint split (sep : ascii) (s : string) : list string :=
  match s with
  | EmptyString => [EmptyString]
  | String c s' =>
      if Ascii.eqb c sep then EmptyString :: split sep s'
      else match split sep s' with
           | [] => [String c EmptyString]
           | w :: ws => String c w :: ws
           end
  end.

(** [array.join(sep)] *)
Fixpoint join (sep : string) (parts : list string) : string :=
  match parts with
  | [] => EmptyString
  | [p] => p
  | p :: ps => p ++ sep ++ join sep ps
  end.

(** [s.match(/pat/) !== null] for a pattern without metacharacters. *)
Fixpoint matches_literal (pat s : string) : bool :=
  prefix pat s ||
  match s with
  | EmptyString => false
  | String _ s' => matches_literal pat s'
  end.

(** [_.startsWith(string, target)] on a string. *)
Definition startsWith (s target : string) : bool := prefix target s.

(** Decimal rendering of a number, as [ToString] gives for an integer. *)
Definition string_of_N (n : N) : string := NilZero.string_of_uint (N.to_uint n).

(** An array index is the canonical decimal numeral of an integer between 0
    and 2^32 - 2. *)
Definition array_index (k : string) : option N :=
  match NilZero.uint_of_string k with
  | Some d =>
      let n := N.of_uint d in
      if String.eqb (string_of_N n) k && (n <=? 4294967294)%N
      then Some n else None
  | None => None
  end.

(** ** Values and objects *)

#[warnings="-register-all"]
Inductive value : Type :=
| VUndef
| VNum (n : N)
| VStr (s : string)
| VObj (props : list (string * value)).

Definition props := list (string * value).

Definition keys (ps : props) : list string := map fst ps.

Fixpoint obj_lookup (k : string) (ps : props) : option value :=
  match ps with
  | [] => None
  | (k', v) :: ps' => if String.eqb k' k then Some v else obj_lookup k ps'
  end.

Definition has_key (k : string) (ps : props) : bool :=
  match obj_lookup k ps with Some _ => true | None => false end.

(** Overwriting an existing property keeps its place in the enumeration. *)
Fixpoint obj_replace (k : string) (v : value) (ps : props) : props :=
  match ps with
  | [] => []
  | (k', v') :: ps' =>
      if String.eqb k' k then (k', v) :: ps' else (k', v') :: obj_replace k v ps'
  end.

(** A new array-index key is enumerated in numeric position, before every
    key that is not an array index. *)
Fixpoint obj_insert_index (n : N) (k : string) (v : value) (ps : props) : props :=
  match ps with
  | [] => [(k, v)]
  | (k', v') :: ps' =>
      match array_index k' with
      | Some n' =>
          if (n' <? n)%N then (k', v') :: obj_insert_index n k v ps'
          else (k, v) :: ps
      | None => (k, v) :: ps
      end
  end.

(** [o[k] = v] on the own properties of an object, for a key other than
    [__proto__], whose assignment goes to the setter of [Object.prototype]
    and stores nothing. *)
Definition obj_set (ps : props) (k : string) (v : value) : props :=
  if has_key k ps then obj_replace k v ps
  else match array_index k with
       | Some n => obj_insert_index n k v ps
       | None => (ps ++ [(k, v)])%list
       end.

(** Results of code that may throw. *)
Inductive error : Type := TypeError.

Inductive result (A : Type) : Type :=
| Ok (a : A)
| Throw (e : error).

Arguments Ok {A} a.
Arguments Throw {A} e.

Definition bind {A B : Type} (r : result A) (f : A -> result B) : result B :=
  match r with
  | Ok a => f a
  | Throw e => Throw e
  end.

Notation "x <- r ;; k" := (bind r (fun x => k))
  (at level 61, r at next level, right associativity).

(** [o[k]] for a key that is an own property of [o] or names no inherited
    member of it. *)
Definition js_get (o : value) (k : string) : result value :=
  match o with
  | VUndef => Throw TypeError
  | VNum _ => Ok VUndef
  | VStr s =>
      if String.eqb k "length" then Ok (VNum (N.of_nat (String.length s)))
      else match array_index k with
           | Some n =>
               match String.get (N.to_nat n) s with
               | Some c => Ok (VStr (String c EmptyString))
               | None => Ok VUndef
               end
           | None => Ok VUndef
           end
  | VObj ps =>
      match obj_lookup k ps with
      | Some v => Ok v
      | None => Ok VUndef
      end
  end.

(** [o[k] = v]; the result is [o] after the assignment. *)
Definition js_set (o : value) (k : string) (v : value) : result value :=
  match o with
  | VUndef => Throw TypeError
  | VNum _ | VStr _ => Ok o
  | VObj ps => Ok (VObj (obj_set ps k v))
  end.

(** The object [o] after the object it holds at [k] has been mutated into [c]. *)
Definition store_child (o : value) (k : string) (c : value) : value :=
  match o with
  | VObj ps => VObj (obj_replace k c ps)
  | _ => o
  end.

Definition is_undefined (v : value) : bool :=
  match v with VUndef => true | _ => false end.

(** [_.isObject(v)] *)
Definition isObject (v : value) : bool :=
  match v with VObj _ => true | _ => false end.

(** lodash's [baseToString]: [value == null ? '' : (value + '')], for an
    object that owns neither [toString] nor [valueOf]. *)
Definition baseToString (v : value) : string :=
  match v with
  | VUndef => EmptyString
  | VNum n => string_of_N n
  | VStr s => s
  | VObj _ => "[object Object]"
  end.

(** The leaf built by [attachFilenameToLeafNode]. *)
Definition require_expr (fullLocation : string) : string :=
  "require('./" ++ fullLocation ++ "')".

(** ** The tree builder *)

Section Builder.

(** [path.sep] of the host, [module.exports.appendToConflicts] and lodash's
    [_.camelCase]. *)
Variable sep : ascii.
Variable appendToConflicts : string.
Variable camelCase : string -> string.

Definition handleConflicts (treeObject : value) (parentKey : string) : result value :=
  cur <- js_get treeObject parentKey ;;
  if startsWith (baseToString cur) "require(" then
    t1 <- js_set treeObject (parentKey ++ appendToConflicts) cur ;;
    js_set t1 parentKey (VObj [])
  else Ok treeObject.

Definition attachFilenameToLeafNode (treeObject : value) (filenamePart fullLocation : string)
    (parentKey : option string) : result value :=
  match parentKey with
  | None =>
      js_set treeObject (camelCase filenamePart) (VStr (require_expr fullLocation))
  | Some pk =>
      t1 <- handleConflicts treeObject pk ;;
      child <- js_get t1 pk ;;
      child' <- js_set child (camelCase filenamePart) (VStr (require_expr fullLocation)) ;;
      Ok (store_child t1 pk child')
  end.

(** The [_.reduce] over [locationParts]: [treeObject] is the accumulator,
    [traversals] the counter the callback decrements.  The result is
    [treeObject] after the remaining iterations have run. *)
Fixpoint walk (filenamePart filename : string) (locationParts : list string)
    (traversals : Z) (treeObject : value) : result value :=
  match locationParts with
  | [] => Ok treeObject
  | locationPart :: rest =>
      cur <- js_get treeObject locationPart ;;
      t1 <- (if is_undefined cur then js_set treeObject locationPart (VObj [])
             else Ok treeObject) ;;
      let traversals := (traversals - 1)%Z in
      t2 <- (if (traversals =? 0)%Z
             then attachFilenameToLeafNode t1 filenamePart filename (Some locationPart)
             else Ok t1) ;;
      next <- js_get t2 locationPart ;;
      next' <- walk filenamePart filename rest traversals next ;;
      Ok (store_child t2 locationPart next')
  end.

(** The result is [jsonObject] after the call. *)
Definition filenameToJson (jsonObject : value) (filename : string) : result value :=
  let locationParts := split sep filename in
  let filenamePart := slice (last locationParts EmptyString) 0 (Some (-3)%Z) in
  let locationParts := removelast locationParts in
  let traversals := Z.of_nat (List.length locationParts) in
  j <- (if (traversals =? 0)%Z
        then attachFilenameToLeafNode jsonObject filenamePart filename None
        else Ok jsonObject) ;;
  walk filenamePart filename locationParts traversals j.

(** The ['file'] handler of [go] run on a sequence of eligible relative
    paths, starting from [json = {}]. *)
Definition build_tree (filenames : list string) : result value :=
  fold_left (fun acc filename => json <- acc ;; filenameToJson json filename)
            filenames (Ok (VObj [])).

End Builder.

(** ** The deterministic serializer *)

(** [array.sort()] without a comparator, on strings: ascending order of the
    code units. *)
Fixpoint sort_insert (k : string) (ks : list string) : list string :=
  match ks with
  | [] => [k]
  | k' :: ks' => if String.leb k k' then k :: ks else k' :: sort_insert k ks'
  end.

Fixpoint array_sort (ks : list string) : list string :=
  match ks with
  | [] => []
  | k :: ks' => sort_insert k (array_sort ks')
  end.

(** The [_.forEach] of [sortJson]: [sorted[key] = child key] for each key. *)
Definition fill_sorted (child : string -> value) (ks : list string) (sorted : props) : props :=
  fold_left (fun sorted key => obj_set sorted key (child key)) ks sorted.

(** The local [sorted_at ps key] is [sortJson(json[key])]. *)
Fixpoint sortJson (json : value) : value :=
  match json with
  | VObj ps =>
      let sorted_at :=
        fix sorted_at (qs : props) (key : string) {struct qs} : value :=
          match qs with
          | [] => VUndef
          | (k, v) :: qs' => if String.eqb k key then sortJson v else sorted_at qs' key
          end in
      VObj (fill_sorted (sorted_at ps) (array_sort (keys ps)) [])
  | _ => json
  end.

(** ** The lazy-binding rewriter *)

Definition in_range (lo hi : nat) (c : ascii) : bool :=
  let n := nat_of_ascii c in ((lo <=? n)%nat && (n <=? hi)%nat)%bool.

Definition is_upper (c : ascii) : bool := in_range 65 90 c.
Definition is_lower (c : ascii) : bool := in_range 97 122 c.
Definition is_digit (c : ascii) : bool := in_range 48 57 c.

(** The class [\w]. *)
Definition is_word (c : ascii) : bool :=
  is_upper c || is_lower c || is_digit c || Ascii.eqb c "_".

(** The class [[\w\.\/]]. *)
Definition is_path_char (c : ascii) : bool :=
  is_word c || Ascii.eqb c "." || Ascii.eqb c "/".

(** The longest prefix of [s] within a class, and what follows it. *)
Fixpoint span (p : ascii -> bool) (s : string) : string * string :=
  match s with
  | EmptyString => (EmptyString, EmptyString)
  | String c s' =>
      if p c then let (a, b) := span p s' in (String c a, b)
      else (EmptyString, s)
  end.

Fixpoint strip_prefix (lit s : string) : option string :=
  match lit with
  | EmptyString => Some s
  | String c lit' =>
      match s with
      | EmptyString => None
      | String d s' => if Ascii.eqb c d then strip_prefix lit' s' else None
      end
  end.

(** A match of [/(\w+): require\('\.\/([\w\.\/]+)'\)/] starting at the head of
    [s]: the two groups and the text after the match.  Each greedy class is
    followed by a literal character outside the class, so the longest run is
    the only one backtracking could accept. *)
Definition match_at (s : string) : option (string * string * string) :=
  let (key, r1) := span is_word s in
  match key with
  | EmptyString => None
  | _ =>
      match strip_prefix ": require('./" r1 with
      | None => None
      | Some r2 =>
          let (arg, r3) := span is_path_char r2 in
          match arg with
          | EmptyString => None
          | _ =>
              match strip_prefix "')" r3 with
              | None => None
              | Some r4 => Some (key, arg, r4)
              end
          end
      end
  end.

(** The replacement ['get $1() { return require(\'./$2\'); }']. *)
Definition getter (key arg : string) : string :=
  "get " ++ key ++ "() { return require('./" ++ arg ++ "'); }".

(** Global replace, left to right; [skip] counts the characters of the
    current match still to be consumed. *)
Fixpoint replace_from (s : string) (skip : nat) : string :=
  match s with
  | EmptyString => EmptyString
  | String c s' =>
      match skip with
      | S n => replace_from s' n
      | O =>
          match match_at s with
          | Some (key, arg, rest) =>
              getter key arg
              ++ replace_from s' (String.length s - String.length rest - 1)
          | None => String c (replace_from s' 0)
          end
      end
  end.

Definition convertToLazyRequireJson (jsonString : string) : string :=
  replace_from jsonString 0.

(** ** The default eligibility predicate *)

(** [_.all(array)] with the identity callback. *)
Definition all (conditions : list bool) : bool := forallb (fun b => b) conditions.

Definition shouldBeIndexed (filename : string) : bool :=
  all [ String.eqb (slice filename (-3) None) ".js";
        negb (String.eqb (slice filename (-8) None) "index.js");
        negb (matches_literal "node_modules" filename) ].

(** [module.exports.appendToConflicts] *)
Definition default_appendToConflicts : string := "Js".

(** ** lodash's [_.camelCase]

    lodash is a dependency of the module, not part of it.  [lodash_camelCase]
    follows lodash 3.10 on ASCII input: the words of the string are the
    successive matches of
    [/U+(?=UL+)|U?L+|U+|[0-9]+/g] with [U = [A-Z]] and [L = [a-z]]; each word
    is lowercased and every word but the first is capitalised. *)

Definition toLowerCase_char (c : ascii) : ascii :=
  if is_upper c then ascii_of_nat (nat_of_ascii c + 32) else c.

Definition toUpperCase_char (c : ascii) : ascii :=
  if is_lower c then ascii_of_nat (nat_of_ascii c - 32) else c.

Fixpoint map_chars (f : ascii -> ascii) (s : string) : string :=
  match s with
  | EmptyString => EmptyString
  | String c s' => String (f c) (map_chars f s')
  end.

Definition capitalize (word : string) : string :=
  match word with
  | EmptyString => EmptyString
  | String c rest => String (toUpperCase_char c) rest
  end.

(** The word matched at the head of [s], if any. *)
Definition word_at (s : string) : option string :=
  match s with
  | EmptyString => None
  | String c _ =>
      if is_upper c then
        let (uppers, r) := span is_upper s in
        match r with
        | String c' _ =>
            if is_lower c' then
              if (2 <=? String.length uppers)%nat
              then Some (substring 0 (String.length uppers - 1) uppers)
              else Some (uppers ++ fst (span is_lower r))
            else Some uppers
        | EmptyString => Some uppers
        end
      else if is_lower c then Some (fst (span is_lower s))
      else if is_digit c then Some (fst (span is_digit s))
      else None
  end.

Fixpoint words_from (s : string) (skip : nat) : list string :=
  match s with
  | EmptyString => []
  | String c s' =>
      match skip with
      | S n => words_from s' n
      | O =>
          match word_at s with
          | Some w => w :: words_from s' (String.length w - 1)
          | None => words_from s' 0
          end
      end
  end.

Definition words (s : string) : list string := words_from s 0.

Fixpoint compound (ws : list string) (index : nat) (result : string) : string :=
  match ws with
  | [] => result
  | w :: ws' =>
      let word := map_chars toLowerCase_char w in
      compound ws' (S index)
        (result ++ match index with O => word | S _ => capitalize word end)
  end.

Definition lodash_camelCase (s : string) : string := compound (words s) 0 EmptyString.

(** ** Rendering, as the ['end'] handler of [go] does *)

Definition dquote : ascii := ascii_of_nat 34.
Definition newline : string := String (ascii_of_nat 10) EmptyString.

Definition hex_digit (n : nat) : ascii :=
  if (n <? 10)%nat then ascii_of_nat (48 + n) else ascii_of_nat (87 + n).

(** The escape [JSON.stringify] writes for one character of a string. *)
Definition json_escape (c : ascii) : string :=
  let n := nat_of_ascii c in
  if (n =? 34)%nat then String "\" (String dquote EmptyString)
  else if (n =? 92)%nat then "\\"
  else if (n =? 8)%nat then "\b"
  else if (n =? 12)%nat then "\f"
  else if (n =? 10)%nat then "\n"
  else if (n =? 13)%nat then "\r"
  else if (n =? 9)%nat then "\t"
  else if (n <? 32)%nat
       then "\u00" ++ String (hex_digit (n / 16)) (String (hex_digit (n mod 16)) EmptyString)
  else String c EmptyString.

Fixpoint json_escape_all (s : string) : string :=
  match s with
  | EmptyString => EmptyString
  | String c s' => json_escape c ++ json_escape_all s'
  end.

Definition json_quote (s : string) : string :=
  String dquote (json_escape_all s ++ String dquote EmptyString).

(** [JSON.stringify(v, null, 4)] below the indentation [indent]; [None] is
    [undefined], which drops the property that holds it. *)
Fixpoint stringify (indent : string) (v : value) : option string :=
  match v with
  | VUndef => None
  | VNum n => Some (string_of_N n)
  | VStr s => Some (json_quote s)
  | VObj ps =>
      let inner := indent ++ "    " in
      let members :=
        (fix members (qs : props) : list string :=
           match qs with
           | [] => []
           | (k, x) :: qs' =>
               match stringify inner x with
               | Some text => (json_quote k ++ ": " ++ text) :: members qs'
               | None => members qs'
               end
           end) ps in
      match members with
      | [] => Some "{}"
      | _ => Some ("{" ++ newline ++ inner
                   ++ join ("," ++ newline ++ inner) members
                   ++ newline ++ indent ++ "}")
      end
  end.

(** The [replace] of the ['end'] handler: every double quote is removed. *)
Fixpoint remove_quotes (s : string) : string :=
  match s with
  | EmptyString => EmptyString
  | String c s' =>
      if Ascii.eqb c dquote then remove_quotes s' else String c (remove_quotes s')
  end.

(** [greedyJson] and [lazyJson] of the ['end'] handler. *)
Definition greedyJson (json : value) : option string :=
  option_map remove_quotes (stringify EmptyString (sortJson json)).

Definition lazyJson (json : value) : option string :=
  option_map convertToLazyRequireJson (greedyJson json).

(** [util.format(indexTemplate, header, lazyJson)] *)
Definition indexTemplate (header body : string) : string :=
  "/**" ++ newline ++ header ++ newline ++ " */" ++ newline
  ++ "module.exports = " ++ body ++ ";".

(** ** The ['file'] handler of [go] *)

(** [s.split('')]: the code units of [s], one string each. *)
Fixpoint chars (s : string) : list string :=
  match s with
  | EmptyString => []
  | String c s' => String c EmptyString :: chars s'
  end.

(** [s.split(separator)] for a non-empty separator: the pieces between the
    successive occurrences of the separator, found left to right; [skip]
    counts the characters of the current occurrence still to be passed. *)
Fixpoint split_str_from (separator s : string) (skip : nat) : list string :=
  match s with
  | EmptyString => [EmptyString]
  | String c s' =>
      match skip with
      | S n => split_str_from separator s' n
      | O =>
          if prefix separator s
          then EmptyString :: split_str_from separator s' (String.length separator - 1)
          else match split_str_from separator s' 0 with
               | [] => [String c EmptyString]
               | w :: ws => String c w :: ws
               end
      end
  end.

Definition split_str (separator s : string) : list string :=
  match separator with
  | EmptyString => chars s
  | _ => split_str_from separator s 0
  end.

Section Handler.

Variable sep : ascii.
Variable appendToConflicts : string.
Variable camelCase : string -> string.

(** [module.exports.shouldBeIndexed], which the rules may replace. *)
Variable eligible : string -> bool.

(** The callback of [emitter.on('file', ...)]: [directory] is the resolved
    directory, [json] the tree so far; the result is the tree after the
    callback.  When [directory] does not occur in [filename] the second piece
    of the split is [undefined], and [filenameToJson] throws on its
    [split]. *)
Definition on_file (directory : string) (json : value) (filename : string) : result value :=
  if eligible filename then
    match nth_error (split_str directory filename) 1 with
    | Some relative =>
        let relative := if startsWith relative "/" then slice relative 1 None
                        else relative in
        filenameToJson sep appendToConflicts camelCase json relative
    | None => Throw TypeError
    end
  else Ok json.

End Handler.

(** ** Vocabulary of the properties *)

(** [v[k1][k2]...[kn]] *)
Fixpoint lookup_path (v : value) (path : list string) : result value :=
  match path with
  | [] => Ok v
  | k :: rest => c <- js_get v k ;; lookup_path c rest
  end.

(** The directory segments and the filename part [filenameToJson] computes. *)
Definition directories (sep : ascii) (filename : string) : list string :=
  removelast (split sep filename).

Definition filename_part (sep : ascii) (filename : string) : string :=
  slice (last (split sep filename) EmptyString) 0 (Some (-3)%Z).

(** What a directory segment may meet for the walk to stay inside objects:
    nothing, a namespace node, or (at the last segment only) a leaf. *)
Definition free_or_node_or_leaf (slot : option value) : bool :=
  match slot with
  | None | Some VUndef | Some (VObj _) => true
  | Some v => startsWith (baseToString v) "require("
  end.

Fixpoint walkable (t : value) (dirs : list string) : bool :=
  match t with
  | VObj ps =>
      match dirs with
      | [] => true
      | d :: rest =>
          match rest with
          | [] => free_or_node_or_leaf (obj_lookup d ps)
          | _ :: _ =>
              match obj_lookup d ps with
              | None | Some VUndef => true
              | Some c => walkable c rest
              end
          end
      end
  | _ => false
  end.

(** Enumeration order of the keys of an object built by inserting them in
    ascending code-unit order: array indices first, by numeric value, then
    the other keys by code units. *)
Definition js_key_lt (a b : string) : bool :=
  match array_index a, array_index b with
  | Some x, Some y => (x <? y)%N
  | Some _, None => true
  | None, Some _ => false
  | None, None => String.ltb a b
  end.

(** Every element precedes every later one. *)
Fixpoint ordered (lt : string -> string -> bool) (ks : list string) : bool :=
  match ks with
  | [] => true
  | k :: rest => forallb (lt k) rest && ordered lt rest
  end.

(** Every namespace node of the tree enumerates its keys in [lt] order. *)
Fixpoint ordered_tree (lt : string -> string -> bool) (v : value) : bool :=
  match v with
  | VObj ps => ordered lt (keys ps) && forallb (fun kv => ordered_tree lt (snd kv)) ps
  | _ => true
  end.

Definition keys_of (v : value) : list string :=
  match v with VObj ps => keys ps | _ => [] end.

(** The characters of [s] from position [n] on. *)
Fixpoint drop_chars (n : nat) (s : string) : string :=
  match n, s with
  | O, _ => s
  | S n', EmptyString => EmptyString
  | S n', String _ s' => drop_chars n' s'
  end.

Fixpoint take_chars (n : nat) (s : string) : string :=
  match n, s with
  | O, _ => EmptyString
  | S n', EmptyString => EmptyString
  | S n', String c s' => String c (take_chars n' s')
  end.

(** Every character of [s] is in the class [p]. *)
Fixpoint all_chars (p : ascii -> bool) (s : string) : bool :=
  match s with
  | EmptyString => true
  | String c s' => p c && all_chars p s'
  end.

(** [sortJson(json[key])] for the object with the own properties [ps]. *)
Definition sorted_child (ps : props) (key : string) : value :=
  match obj_lookup key ps with
  | Some v => sortJson v
  | None => VUndef
  end.

Definition is_array_index (k : string) : bool :=
  match array_index k with Some _ => true | None => false end.

(** The root keys an insertion may write: the leaf key for a file at the
    root, else the first directory segment and its conflict key. *)
Definition touched_keys (sep : ascii) (appendToConflicts : string)
    (camelCase : string -> string) (filename : string) : list string :=
  match directories sep filename with
  | [] => [camelCase (filename_part sep filename)]
  | d :: _ => [d; d ++ appendToConflicts]
  end.

(** [ps'] keeps every key of [ps], and the value of every key outside
    [touched]. *)
Definition frame (touched : list string) (ps ps' : props) : Prop :=
  (forall k, In k (keys ps) -> In k (keys ps'))
  /\ (forall k, ~ In k touched -> obj_lookup k ps' = obj_lookup k ps).

Definition not_word (c : ascii) : bool := negb (is_word c).

(** Two trees that differ at most in the order in which their namespace
    nodes enumerate their keys. *)
Inductive same_tree : value -> value -> Prop :=
| same_leaf (v : value) : isObject v = false -> same_tree v v
| same_node (ps ps' : props) :
    (forall k, In k (keys ps) <-> In k (keys ps')) ->
    (forall k v v', obj_lookup k ps = Some v -> obj_lookup k ps' = Some v' ->
                    same_tree v v') ->
    same_tree (VObj ps) (VObj ps').

(** The leaf stored at a key path, if the path ends at a leaf. *)
Fixpoint leaf_at (t : value) (pos : list string) : option string :=
  match pos with
  | [] => match t with VStr s => Some s | _ => None end
  | k :: rest =>
      match t with
      | VObj ps =>
          match obj_lookup k ps with
          | Some c => leaf_at c rest
          | None => None
          end
      | _ => None
      end
  end.

(** A leaf, or a namespace node that is not empty and whose children are
    populated. *)
Fixpoint populated (v : value) : bool :=
  match v with
  | VStr _ => true
  | VObj ps =>
      negb (match ps with [] => true | _ :: _ => false end)
      && forallb (fun kv => populated (snd kv)) ps
  | _ => false
  end.

(** The children of a namespace node are populated. *)
Definition populated_children (ps : props) : bool :=
  forallb (fun kv => populated (snd kv)) ps.

(** Every directory segment meets an absent key or a namespace node. *)
Fixpoint passable (ps : props) (dirs : list string) : bool :=
  match dirs with
  | [] => true
  | d :: rest =>
      match obj_lookup d ps with
      | None => true
      | Some (VObj cps) => passable cps rest
      | Some _ => false
      end
  end.

(** Insertion into a trie of namespace nodes: the nodes on the way are
    created where absent and the value is assigned at the end. *)
Fixpoint trie_insert (dirs : list string) (key : string) (leaf : value) (ps : props) : props :=
  match dirs with
  | [] => obj_set ps key leaf
  | d :: rest =>
      let child := match obj_lookup d ps with Some (VObj cps) => cps | _ => [] end in
      obj_set ps d (VObj (trie_insert rest key leaf child))
  end.

Fixpoint is_prefix (p q : list string) : bool :=
  match p, q with
  | [], _ => true
  | _ :: _, [] => false
  | a :: p', b :: q' => String.eqb a b && is_prefix p' q'
  end.

(** No key path of the list is a prefix of another one, or equal to it. *)
Fixpoint prefix_free (paths : list (list string)) : bool :=
  match paths with
  | [] => true
  | p :: rest =>
      forallb (fun q => negb (is_prefix p q) && negb (is_prefix q p)) rest
      && prefix_free rest
  end.

(** The key path of the leaf of a file: its directory segments, then the
    camel-cased filename part. *)
Definition leaf_position (sep : ascii) (camelCase : string -> string)
    (filename : string) : list string :=
  (directories sep filename ++ [camelCase (filename_part sep filename)])%list.

(** A leaf, or a namespace node whose children are populated. *)
Definition tree_like (v : value) : bool :=
  match v with
  | VStr _ => true
  | VObj ps => populated_children ps
  | _ => false
  end.

(** The key path and the leaf of a file. *)
Definition leaf_entry (sep : ascii) (camelCase : string -> string)
    (filename : string) : list string * string :=
  (leaf_position sep camelCase filename, require_expr filename).

(** The namespace node [ps] holds the leaves of [files], each at its key
    path, and nothing else. *)
Definition represents (sep : ascii) (camelCase : string -> string)
    (ps : props) (files : list string) : Prop :=
  populated_children ps = true
  /\ forall pos x, leaf_at (VObj ps) pos = Some x
                   <-> In (pos, x) (map (leaf_entry sep camelCase) files).

(** The key paths are distinct and none is a prefix of another. *)
Definition incomparable (paths : list (list string)) : Prop :=
  NoDup paths
  /\ forall p q, In p paths -> In q paths -> p <> q -> is_prefix p q = false.

(** The names of the members of [Object.prototype].  A read of one of them
    on an object that does not own it finds the inherited member, an
    assignment to [__proto__] on such an object creates no property, and a
    node owning [toString] cannot be converted by [baseToString]. *)
Definition object_prototype_names : list string :=
  ["constructor"; "__defineGetter__"; "__defineSetter__"; "hasOwnProperty";
   "__lookupGetter__"; "__lookupSetter__"; "isPrototypeOf";
   "propertyIsEnumerable"; "toString"; "valueOf"; "__proto__";
   "toLocaleString"].

(** A key that names no member of [Object.prototype]. *)
Definition plain_key (k : string) : bool :=
  negb (existsb (String.eqb k) object_prototype_names).

(** Every key of every namespace node of the tree is plain. *)
Fixpoint plain_tree (v : value) : bool :=
  match v with
  | VObj ps => forallb (fun kv => plain_key (fst kv) && plain_tree (snd kv)) ps
  | _ => true
  end.

(** No namespace node of the tree owns the key [__proto__]. *)
Fixpoint proto_free (v : value) : bool :=
  match v with
  | VObj ps =>
      forallb (fun kv => negb (String.eqb (fst kv) "__proto__") && proto_free (snd kv)) ps
  | _ => true
  end.

(** The tree and every key the insertion of [filename] reads or writes are
    plain: the directory segments, the conflict key of each, and the leaf
    key. *)
Definition plain_insertion (sep : ascii) (appendToConflicts : string)
    (camelCase : string -> string) (t : value) (filename : string) : bool :=
  plain_tree t
  && forallb plain_key (directories sep filename)
  && forallb (fun d => plain_key (d ++ appendToConflicts)) (directories sep filename)
  && plain_key (camelCase (filename_part sep filename)).

(** Every key of the key path of every file is plain. *)
Definition plain_files (sep : ascii) (camelCase : string -> string)
    (files : list string) : bool :=
  forallb (fun f => forallb plain_key (leaf_position sep camelCase f)) files.

(** The characters of an identifier name. *)
Definition is_identifier_char (c : ascii) : bool := is_word c || Ascii.eqb c "$".

(** The value reached from [t] through the own properties named by [path],
    each step inside a namespace node. *)
Fixpoint own_path (t : value) (path : list string) : option value :=
  match path with
  | [] => Some t
  | k :: rest =>
      match t with
      | VObj ps =>
          match obj_lookup k ps with
          | Some c => own_path c rest
          | None => None
          end
      | _ => None
      end
  end.

Definition ends_with (suffix s : string) : Prop := exists p, s = p ++ suffix.

Definition contains (pat s : string) : Prop := exists a b, s = a ++ pat ++ b.

(** The last segment of a path, and membership of a segment. *)
Definition basename (sep : ascii) (path : string) : string :=
  last (split sep path) EmptyString.

Definition has_segment (sep : ascii) (segment path : string) : Prop :=
  In segment (split sep path).

(** * Properties *)

(** ** Strings *)

Lemma append_nil_r (s : string) : s ++ "" = s.
Proof. induction s as [|c s IH]; simpl; [reflexivity | now rewrite IH]. Qed.

Lemma append_assoc (a b c : string) : (a ++ b) ++ c = a ++ b ++ c.
Proof. induction a as [|x a IH]; simpl; [reflexivity | now rewrite IH]. Qed.

Lemma length_append (a b : string) :
  String.length (a ++ b) = String.length a + String.length b.
Proof. induction a as [|x a IH]; simpl; [reflexivity | now rewrite IH]. Qed.

Lemma prefix_spec (p s : string) : prefix p s = true <-> exists r, s = p ++ r.
Proof.
  revert s; induction p as [|c p IH]; intros s.
  - simpl. destruct s; split; eauto.
  - destruct s as [|d s]; simpl.
    + split; [discriminate | intros [r Hr]; discriminate].
    + destruct (ascii_dec c d) as [->|Hne].
      * rewrite IH. split; intros [r Hr]; exists r; congruence.
      * split; [discriminate | intros [r Hr]; congruence].
Qed.

Lemma matches_literal_spec (pat s : string) :
  matches_literal pat s = true <-> contains pat s.
Proof.
  unfold contains. induction s as [|c s IH].
  - cbn [matches_literal]. rewrite orb_false_r, prefix_spec. split.
    + intros [r Hr]. exists "", r. exact Hr.
    + intros [a [b Hab]]. destruct a; [exists b; exact Hab | discriminate].
  - cbn [matches_literal]. rewrite orb_true_iff, IH, prefix_spec. split.
    + intros [[r Hr] | [a [b Hab]]].
      * exists "", r. exact Hr.
      * exists (String c a), b. simpl. now rewrite Hab.
    + intros [[|d a] [b Hab]].
      * left. exists b. exact Hab.
      * right. simpl in Hab. injection Hab as _ Hs. eauto.
Qed.

Lemma substring_whole (s : string) (m : nat) :
  String.length s <= m -> substring 0 m s = s.
Proof.
  revert m; induction s as [|c s IH]; intros [|m] H; simpl in *; try reflexivity; try lia.
  now rewrite IH by lia.
Qed.

Lemma substring_drop (n m : nat) (s : string) :
  String.length s - n <= m -> substring n m s = drop_chars n s.
Proof.
  revert s; induction n as [|n IH]; intros s H.
  - simpl. apply substring_whole. lia.
  - destruct s as [|c s]; simpl; [now destruct m | apply IH; simpl in H; lia].
Qed.

Lemma substring_take (m : nat) (s : string) : substring 0 m s = take_chars m s.
Proof.
  revert s; induction m as [|m IH]; intros [|c s]; simpl; try reflexivity.
  now rewrite IH.
Qed.

Lemma take_drop (n : nat) (s : string) : take_chars n s ++ drop_chars n s = s.
Proof.
  revert s; induction n as [|n IH]; intros [|c s]; simpl; try reflexivity.
  now rewrite IH.
Qed.

Lemma drop_chars_app (p s : string) : drop_chars (String.length p) (p ++ s) = s.
Proof. induction p as [|c p IH]; simpl; [now destruct s | exact IH]. Qed.

(** [s.slice(-n)] is the text of the last [n] characters. *)
Lemma slice_last (n : nat) (s : string) :
  0 < n -> slice s (- Z.of_nat n) None = drop_chars (String.length s - n) s.
Proof.
  intros Hn. unfold slice.
  replace (- Z.of_nat n <? 0)%Z with true by (symmetry; apply Z.ltb_lt; lia).
  set (len := Z.of_nat (String.length s)).
  replace (Z.to_nat (Z.max (len + - Z.of_nat n) 0)) with (String.length s - n) by lia.
  apply substring_drop. lia.
Qed.

Lemma slice_last_ends_with (suffix s : string) :
  0 < String.length suffix ->
  slice s (- Z.of_nat (String.length suffix)) None = suffix <-> ends_with suffix s.
Proof.
  intros Hn. rewrite slice_last by exact Hn. split.
  - remember (String.length s - String.length suffix) as n eqn:En. clear En.
    intros H. exists (take_chars n s). rewrite <- H. symmetry. apply take_drop.
  - intros [p ->]. rewrite length_append.
    replace (String.length p + String.length suffix - String.length suffix)
      with (String.length p) by lia.
    apply drop_chars_app.
Qed.

Lemma split_not_nil (sep : ascii) (s : string) : split sep s <> [].
Proof.
  destruct s as [|c s]; simpl; [discriminate |].
  destruct (Ascii.eqb c sep); [discriminate |].
  destruct (split sep s); discriminate.
Qed.

(** [filename.split(sep).join(sep)] gives the path back. *)
Lemma join_split (sep : ascii) (s : string) :
  join (String sep "") (split sep s) = s.
Proof.
  induction s as [|c s IH]; [reflexivity |].
  cbn [split]. destruct (Ascii.eqb_spec c sep) as [->|Hne].
  - pose proof (split_not_nil sep s) as Hnil.
    destruct (split sep s) as [|w ws]; [contradiction |].
    cbn [join]. cbn [join] in IH. now rewrite IH.
  - pose proof (split_not_nil sep s) as Hnil.
    destruct (split sep s) as [|w ws]; [contradiction |].
    destruct ws as [|w' ws]; cbn [join] in *; simpl; now rewrite <- IH.
Qed.

Lemma join_last_suffix (sep : string) (l : list string) :
  l <> [] -> ends_with (last l "") (join sep l).
Proof.
  induction l as [|p l IH]; [contradiction |]. intros _.
  destruct l as [|q l].
  - exists "". reflexivity.
  - destruct IH as [x Hx]; [discriminate |].
    exists (p ++ sep ++ x). change (last (p :: q :: l) "") with (last (q :: l) "").
    change (join sep (p :: q :: l)) with (p ++ sep ++ join sep (q :: l)).
    rewrite Hx. now rewrite !append_assoc.
Qed.

Lemma join_member_contains (sep : string) (w : string) (l : list string) :
  In w l -> contains w (join sep l).
Proof.
  induction l as [|p l IH]; [contradiction |].
  intros [-> | Hin].
  - destruct l as [|q l].
    + exists "", "". simpl. now rewrite append_nil_r.
    + exists "", (sep ++ join sep (q :: l)). reflexivity.
  - destruct l as [|q l]; [contradiction |].
    destruct (IH Hin) as [a [b Hab]].
    exists (p ++ sep ++ a), b.
    change (join sep (p :: q :: l)) with (p ++ sep ++ join sep (q :: l)).
    rewrite Hab. now rewrite !append_assoc.
Qed.

Lemma basename_suffix (sep : ascii) (path : string) :
  ends_with (basename sep path) path.
Proof.
  unfold basename. rewrite <- (join_split sep path) at 2.
  apply join_last_suffix, split_not_nil.
Qed.

Lemma segment_contains (sep : ascii) (segment path : string) :
  has_segment sep segment path -> contains segment path.
Proof.
  unfold has_segment. intros H. rewrite <- (join_split sep path).
  now apply join_member_contains.
Qed.

(** ** The default eligibility predicate *)

Lemma shouldBeIndexed_iff (filename : string) :
  shouldBeIndexed filename = true <->
  ends_with ".js" filename /\ ~ ends_with "index.js" filename
  /\ ~ contains "node_modules" filename.
Proof.
  unfold shouldBeIndexed, all. cbn [forallb].
  rewrite andb_true_r, !andb_true_iff, !negb_true_iff.
  rewrite String.eqb_eq, String.eqb_neq.
  change (-3)%Z with (- Z.of_nat (String.length ".js"))%Z.
  change (-8)%Z with (- Z.of_nat (String.length "index.js"))%Z.
  rewrite !slice_last_ends_with by (simpl; lia).
  rewrite <- matches_literal_spec.
  rewrite <- not_true_iff_false. tauto.
Qed.

(** C10.  The output-file exclusion compares the last eight characters of the
    path with [index.js]: a path is refused by that test exactly when it ends
    in [index.js], so every path with that ending is rejected whatever
    precedes it, [myindex.js] and [searchindex.js] included. *)
Theorem shouldBeIndexed_rejects_index_js_suffix :
  (forall filename,
      slice filename (-8) None = "index.js" <-> ends_with "index.js" filename)
  /\ (forall before, shouldBeIndexed (before ++ "index.js") = false)
  /\ shouldBeIndexed "myindex.js" = false
  /\ shouldBeIndexed "searchindex.js" = false.
Proof.
  split; [| split; [| split; reflexivity]].
  - intros filename.
    change (-8)%Z with (- Z.of_nat (String.length "index.js"))%Z.
    apply slice_last_ends_with. simpl; lia.
  - intros before. apply not_true_iff_false. rewrite shouldBeIndexed_iff.
    intros (_ & Hno & _). apply Hno. now exists before.
Qed.

(** C6, as the code has it.  The default predicate accepts a path exactly
    when the path ends in [.js], does not end in [index.js], and does not
    contain the text [node_modules] anywhere.  Hence it accepts only paths
    that end in [.js], whose last segment is not [index.js] and that have no
    [node_modules] segment. *)
Theorem shouldBeIndexed_exactly (filename : string) :
  (shouldBeIndexed filename = true <->
   ends_with ".js" filename /\ ~ ends_with "index.js" filename
   /\ ~ contains "node_modules" filename)
  /\ (forall sep,
         shouldBeIndexed filename = true ->
         ends_with ".js" filename
         /\ basename sep filename <> "index.js"
         /\ ~ has_segment sep "node_modules" filename).
Proof.
  split; [apply shouldBeIndexed_iff |].
  intros sep H. apply shouldBeIndexed_iff in H. destruct H as (Hjs & Hidx & Hnm).
  split; [exact Hjs | split].
  - intros Hb. apply Hidx. rewrite <- Hb. apply basename_suffix.
  - intros Hs. apply Hnm. eapply segment_contains. exact Hs.
Qed.

(** The predicate at an accepted path. *)
Lemma shouldBeIndexed_exactly_witness :
  ends_with ".js" "/app/search/account.page.js"
  /\ basename "/" "/app/search/account.page.js" <> "index.js"
  /\ ~ has_segment "/" "node_modules" "/app/search/account.page.js".
Proof.
  exact (proj2 (shouldBeIndexed_exactly "/app/search/account.page.js") "/"%char eq_refl).
Defined.

(** C6 as stated fails: [/app/myindex.js] ends in [.js], is not the file
    [index.js] and has no [node_modules] segment, yet it is refused. *)
Lemma shouldBeIndexed_not_iff_named_index_js :
  ~ (shouldBeIndexed "/app/myindex.js" = true <->
     ends_with ".js" "/app/myindex.js"
     /\ basename "/" "/app/myindex.js" <> "index.js"
     /\ ~ has_segment "/" "node_modules" "/app/myindex.js").
Proof.
  intros [_ H]. assert (Hf : shouldBeIndexed "/app/myindex.js" = true).
  { apply H. split; [now exists "/app/myindex" | split].
    - discriminate.
    - unfold has_segment. simpl. intuition discriminate. }
  discriminate Hf.
Qed.

(** ** Own properties of objects *)

Lemma has_key_lookup (k : string) (ps : props) :
  has_key k ps = true <-> exists v, obj_lookup k ps = Some v.
Proof.
  unfold has_key. destruct (obj_lookup k ps) as [v|]; split; eauto.
  - discriminate.
  - intros [v Hv]; discriminate.
Qed.

Lemma obj_lookup_in_keys (k : string) (ps : props) :
  In k (keys ps) <-> exists v, obj_lookup k ps = Some v.
Proof.
  induction ps as [|[k' v'] ps IH]; simpl.
  - split; [contradiction | intros [v Hv]; discriminate].
  - destruct (String.eqb_spec k' k) as [->|Hne].
    + split; eauto.
    + rewrite <- IH. tauto.
Qed.

Lemma obj_lookup_in (k : string) (v : value) (ps : props) :
  obj_lookup k ps = Some v -> In (k, v) ps.
Proof.
  induction ps as [|[k' v'] ps IH]; simpl; [discriminate |].
  destruct (String.eqb_spec k' k) as [->|Hne].
  - intros [= ->]. now left.
  - intros H. right. auto.
Qed.

Lemma keys_obj_replace (k : string) (v : value) (ps : props) :
  keys (obj_replace k v ps) = keys ps.
Proof.
  induction ps as [|[k' v'] ps IH]; simpl; [reflexivity |].
  destruct (String.eqb k' k); simpl; [reflexivity | now rewrite IH].
Qed.

Lemma obj_lookup_replace (k k' : string) (v : value) (ps : props) :
  obj_lookup k' (obj_replace k v ps) =
  if String.eqb k k' then option_map (fun _ => v) (obj_lookup k ps)
  else obj_lookup k' ps.
Proof.
  induction ps as [|[k0 v0] ps IH]; simpl.
  - now destruct (String.eqb k k').
  - destruct (String.eqb_spec k0 k) as [->|Hne0]; simpl.
    + destruct (String.eqb_spec k k'); reflexivity.
    + rewrite IH. destruct (String.eqb_spec k k') as [<-|Hne].
      * now rewrite (proj2 (String.eqb_neq k0 k) Hne0).
      * reflexivity.
Qed.

Lemma keys_obj_insert_index (n : N) (k : string) (v : value) (ps : props) (x : string) :
  In x (keys (obj_insert_index n k v ps)) <-> x = k \/ In x (keys ps).
Proof.
  induction ps as [|[k' v'] ps IH]; simpl.
  - intuition.
  - destruct (array_index k') as [n'|]; [destruct (n' <? n)%N |]; simpl;
      rewrite ?IH; intuition.
Qed.

Lemma obj_lookup_insert_index (n : N) (k k' : string) (v : value) (ps : props) :
  obj_lookup k ps = None ->
  obj_lookup k' (obj_insert_index n k v ps) =
  if String.eqb k k' then Some v else obj_lookup k' ps.
Proof.
  induction ps as [|[k0 v0] ps IH]; simpl; [reflexivity |].
  destruct (String.eqb_spec k0 k) as [->|Hne0]; [discriminate |]. intros Hnone.
  destruct (array_index k0) as [n'|]; [destruct (n' <? n)%N |]; simpl; try reflexivity.
  rewrite (IH Hnone). destruct (String.eqb_spec k k') as [<-|Hne].
  - now rewrite (proj2 (String.eqb_neq k0 k) Hne0).
  - reflexivity.
Qed.

Lemma obj_lookup_app (k' : string) (ps qs : props) :
  obj_lookup k' (ps ++ qs)%list =
  match obj_lookup k' ps with Some v => Some v | None => obj_lookup k' qs end.
Proof.
  induction ps as [|[k0 v0] ps IH]; simpl; [reflexivity |].
  now destruct (String.eqb k0 k').
Qed.

(** Reading back after [o[k] = v]. *)
Lemma obj_lookup_set (k k' : string) (v : value) (ps : props) :
  obj_lookup k' (obj_set ps k v) =
  if String.eqb k k' then Some v else obj_lookup k' ps.
Proof.
  unfold obj_set, has_key. destruct (obj_lookup k ps) as [v0|] eqn:Hk.
  - rewrite obj_lookup_replace, Hk. reflexivity.
  - destruct (array_index k) as [n|].
    + now apply obj_lookup_insert_index.
    + rewrite obj_lookup_app. simpl.
      destruct (String.eqb_spec k k') as [<-|Hne].
      * now rewrite Hk.
      * now destruct (obj_lookup k' ps).
Qed.

Lemma keys_obj_set (k : string) (v : value) (ps : props) (x : string) :
  In x (keys (obj_set ps k v)) <-> x = k \/ In x (keys ps).
Proof.
  rewrite !obj_lookup_in_keys, obj_lookup_set.
  destruct (String.eqb_spec k x) as [->|Hne].
  - split; eauto.
  - split; [tauto | intros [Heq | H]; [congruence | exact H]].
Qed.

(** ** The tree builder *)

Section BuilderFacts.

Variable sep : ascii.
Variable appendToConflicts : string.
Variable camelCase : string -> string.

Local Abbreviation resolve := (handleConflicts appendToConflicts).
Local Abbreviation attach := (attachFilenameToLeafNode appendToConflicts camelCase).
Local Abbreviation reduce := (walk appendToConflicts camelCase).
Local Abbreviation insert := (filenameToJson sep appendToConflicts camelCase).

(** The conflict resolver on a namespace node: a leaf at [parentKey] moves to
    [parentKey ++ appendToConflicts] and [parentKey] restarts as an empty
    namespace node; anything else is left as it is. *)
Lemma handleConflicts_node (ps : props) (parentKey : string) :
  resolve (VObj ps) parentKey =
  match obj_lookup parentKey ps with
  | Some cur =>
      if startsWith (baseToString cur) "require("
      then Ok (VObj (obj_set (obj_set ps (parentKey ++ appendToConflicts) cur)
                             parentKey (VObj [])))
      else Ok (VObj ps)
  | None => Ok (VObj ps)
  end.
Proof.
  unfold handleConflicts. cbn [js_get].
  destruct (obj_lookup parentKey ps) as [cur|]; cbn [bind]; reflexivity.
Qed.

Lemma walkable_empty (dirs : list string) : walkable (VObj []) dirs = true.
Proof. destruct dirs as [|d [|d' rest]]; reflexivity. Qed.

Lemma walkable_node (t : value) (dirs : list string) :
  walkable t dirs = true -> exists ps, t = VObj ps.
Proof. destruct t, dirs; simpl; try discriminate; eauto. Qed.

(** Attaching under a parent whose slot holds a namespace node or a leaf. *)
Lemma attach_under_parent (ps : props) (filenamePart fullLocation parentKey : string)
    (cur : value) :
  obj_lookup parentKey ps = Some cur ->
  cur <> VUndef ->
  free_or_node_or_leaf (Some cur) = true ->
  exists ps' node,
    attach (VObj ps) filenamePart fullLocation (Some parentKey)
    = Ok (VObj ps')
    /\ obj_lookup parentKey ps' = Some (VObj node)
    /\ obj_lookup (camelCase filenamePart) node = Some (VStr (require_expr fullLocation)).
Proof.
  intros Hcur Hdef Hslot.
  unfold attachFilenameToLeafNode. rewrite handleConflicts_node, Hcur.
  set (leaf := VStr (require_expr fullLocation)).
  destruct (startsWith (baseToString cur) "require(") eqn:Hreq; cbn [bind js_get].
  - rewrite obj_lookup_set, String.eqb_refl. cbn [js_set bind store_child].
    eexists _, _. split; [reflexivity | split].
    + rewrite obj_lookup_replace, String.eqb_refl, obj_lookup_set, String.eqb_refl.
      reflexivity.
    + rewrite obj_lookup_set, String.eqb_refl. reflexivity.
  - rewrite Hcur. destruct cur as [| n | s | cps]; simpl in Hslot, Hreq;
      try congruence.
    cbn [js_set bind store_child].
    eexists _, _. split; [reflexivity | split].
    + rewrite obj_lookup_replace, String.eqb_refl, Hcur. reflexivity.
    + rewrite obj_lookup_set, String.eqb_refl. reflexivity.
Qed.

(** One iteration of the reduce: fill the slot, attach at the last segment,
    go on below the slot. *)
Lemma walk_cons (filenamePart filename locationPart : string) (rest : list string)
    (traversals : Z) (treeObject : value) :
  reduce filenamePart filename (locationPart :: rest) traversals treeObject =
  t1 <- (cur <- js_get treeObject locationPart ;;
         if is_undefined cur then js_set treeObject locationPart (VObj [])
         else Ok treeObject) ;;
  t2 <- (if (traversals - 1 =? 0)%Z
         then attach t1 filenamePart filename (Some locationPart)
         else Ok t1) ;;
  next <- js_get t2 locationPart ;;
  next' <- reduce filenamePart filename rest (traversals - 1)%Z next ;;
  Ok (store_child t2 locationPart next').
Proof.
  cbn [walk]. destruct (js_get treeObject locationPart); reflexivity.
Qed.

(** The walk over a non-empty list of directory segments follows the raw
    segments and leaves the leaf in the node they lead to. *)
Lemma walk_reaches (filenamePart filename : string) (dirs : list string) :
  forall t,
    dirs <> [] ->
    walkable t dirs = true ->
    exists t' node,
      reduce filenamePart filename dirs (Z.of_nat (List.length dirs)) t = Ok t'
      /\ isObject t' = true
      /\ lookup_path t' dirs = Ok (VObj node)
      /\ obj_lookup (camelCase filenamePart) node = Some (VStr (require_expr filename)).
Proof.
  induction dirs as [|d rest IH]; [contradiction |]. intros t _ Hw.
  destruct (walkable_node _ _ Hw) as [ps ->].
  rewrite walk_cons. cbn [js_get].
  replace (Z.of_nat (List.length (d :: rest)) - 1)%Z with (Z.of_nat (List.length rest))
    by (cbn [List.length]; lia).
  (* the slot after the callback has filled an undefined one *)
  assert (Hfill : exists ps1 cur,
             (cur0 <- match obj_lookup d ps with Some v => Ok v | None => Ok VUndef end ;;
              (if is_undefined cur0 then js_set (VObj ps) d (VObj []) else Ok (VObj ps)))
             = Ok (VObj ps1)
             /\ obj_lookup d ps1 = Some cur /\ cur <> VUndef
             /\ (cur = VObj [] \/ obj_lookup d ps = Some cur /\ ps1 = ps)).
  { destruct (obj_lookup d ps) as [c|] eqn:Hd; cbn [bind].
    - destruct c; cbn [is_undefined js_set];
        try (eexists _, _; split; [reflexivity | split; [exact Hd | split;
             [discriminate | right; split; reflexivity]]]).
      exists (obj_set ps d (VObj [])), (VObj []).
      split; [reflexivity | split; [| split; [discriminate | now left]]].
      now rewrite obj_lookup_set, String.eqb_refl.
    - cbn [is_undefined js_set].
      exists (obj_set ps d (VObj [])), (VObj []).
      split; [reflexivity | split; [| split; [discriminate | now left]]].
      now rewrite obj_lookup_set, String.eqb_refl. }
  destruct Hfill as (ps1 & cur & Hstep & Hcur & Hdef & Horigin).
  rewrite Hstep. cbn [bind].
  destruct rest as [|d' rest'].
  - (* last directory segment: the leaf is attached under it *)
    cbn [List.length Z.of_nat Z.eqb].
    assert (Hslot : free_or_node_or_leaf (Some cur) = true).
    { destruct Horigin as [-> | [Ho _]]; [reflexivity |].
      cbn [walkable] in Hw. now rewrite Ho in Hw. }
    destruct (@attach_under_parent ps1 filenamePart filename d cur Hcur Hdef Hslot)
      as (ps2 & node & Hattach & Hnode & Hleaf).
    rewrite Hattach. cbn [bind js_get]. rewrite Hnode. cbn [walk bind store_child].
    eexists _, node. split; [reflexivity | split; [reflexivity | split; [| exact Hleaf]]].
    cbn [lookup_path js_get bind].
    rewrite obj_lookup_replace, String.eqb_refl, Hnode. reflexivity.
  - (* an intermediate segment: the walk goes on below it *)
    replace (Z.of_nat (List.length (d' :: rest')) =? 0)%Z with false
      by (cbn [List.length]; symmetry; apply Z.eqb_neq; lia).
    cbn [bind js_get]. rewrite Hcur. cbn [bind].
    assert (Hnext : walkable cur (d' :: rest') = true).
    { destruct Horigin as [-> | [Ho _]]; [apply walkable_empty |].
      cbn [walkable] in Hw. rewrite Ho in Hw.
      destruct cur; try exact Hw. congruence. }
    destruct (IH cur ltac:(discriminate) Hnext) as (next' & node & Hwalk & Hobj & Hpath & Hleaf).
    rewrite Hwalk. cbn [bind store_child].
    eexists _, node. split; [reflexivity | split; [reflexivity | split; [| exact Hleaf]]].
    cbn [lookup_path js_get bind].
    rewrite obj_lookup_replace, String.eqb_refl, Hcur. cbn [option_map bind]. exact Hpath.
Qed.

(** Inserting a path whose directory segments stay inside namespace nodes
    succeeds, and the leaf ends up under the raw segments. *)
Lemma filenameToJson_reaches (t : value) (filename : string) :
  walkable t (directories sep filename) = true ->
  exists t' node,
    insert t filename = Ok t'
    /\ lookup_path t' (directories sep filename) = Ok (VObj node)
    /\ obj_lookup (camelCase (filename_part sep filename)) node
       = Some (VStr (require_expr filename)).
Proof.
  unfold filenameToJson, directories, filename_part.
  set (dirs := removelast (split sep filename)).
  set (part := slice (last (split sep filename) "") 0 (Some (-3)%Z)).
  intros Hw. destruct dirs as [|d rest] eqn:Hdirs.
  - destruct (walkable_node _ _ Hw) as [ps ->].
    cbn [List.length Z.of_nat Z.eqb attachFilenameToLeafNode js_set bind walk].
    eexists _, _. split; [reflexivity | split; [reflexivity |]].
    now rewrite obj_lookup_set, String.eqb_refl.
  - replace (Z.of_nat (List.length (d :: rest)) =? 0)%Z with false
      by (cbn [List.length]; symmetry; apply Z.eqb_neq; lia).
    cbn [bind].
    destruct (@walk_reaches part filename (d :: rest) t ltac:(discriminate) Hw)
      as (t' & node & Hwalk & _ & Hpath & Hleaf).
    eauto.
Qed.

End BuilderFacts.

(** C4.  With the separator [/], the default conflict marker and lodash's
    camel case, inserting [overview.js] and then [overview/summary.js] into
    an empty tree gives a root whose key [overviewJs] holds the leaf of
    [overview.js] and whose key [overview] holds a namespace node with the
    leaf of [overview/summary.js] under [summary]. *)
Theorem overview_conflict_scenario :
  exists root node,
    build_tree "/" default_appendToConflicts lodash_camelCase
      ["overview.js"; "overview/summary.js"] = Ok (VObj root)
    /\ keys root = ["overview"; "overviewJs"]
    /\ obj_lookup "overviewJs" root = Some (VStr "require('./overview.js')")
    /\ obj_lookup "overview" root = Some (VObj node)
    /\ node = [("summary", VStr "require('./overview/summary.js')")].
Proof.
  eexists _, _. split; [vm_compute; reflexivity |].
  repeat split; reflexivity.
Qed.

(** C1 at its own example.  Inserting [overview.js] before
    [overview/summary.js] keeps both; inserting it after overwrites the
    namespace node [overview] with the leaf, so the serialized trees of the
    two orders differ. *)
Theorem insertion_order_changes_overview :
  let build := build_tree "/" default_appendToConflicts lodash_camelCase in
  let serialize := fun r => match r with Ok t => Ok (sortJson t) | Throw e => Throw e end in
  serialize (build ["overview.js"; "overview/summary.js"])
  = Ok (VObj [("overview", VObj [("summary", VStr "require('./overview/summary.js')")]);
              ("overviewJs", VStr "require('./overview.js')")])
  /\ serialize (build ["overview/summary.js"; "overview.js"])
     = Ok (VObj [("overview", VStr "require('./overview.js')")])
  /\ serialize (build ["overview.js"; "overview/summary.js"])
     <> serialize (build ["overview/summary.js"; "overview.js"]).
Proof.
  cbv zeta. split; [vm_compute; reflexivity | split; [vm_compute; reflexivity |]].
  vm_compute. discriminate.
Qed.

(** C2 at an intermediate segment.  With the leaf of [a.js] at key [a],
    inserting [a/b/c.js] walks through [a] without calling the conflict
    resolver: the leaf stays where it is, no key [aJs] appears and the
    insertion ends in a [TypeError].  When [a] is the last directory segment
    ([a/c.js]) the leaf is moved to [aJs] as the claim says. *)
Theorem intermediate_leaf_is_not_relocated :
  let leaf := VStr "require('./a.js')" in
  filenameToJson "/" default_appendToConflicts lodash_camelCase
    (VObj [("a", leaf)]) "a/b/c.js" = Throw TypeError
  /\ build_tree "/" default_appendToConflicts lodash_camelCase ["a.js"; "a/b/c.js"]
     = Throw TypeError
  /\ filenameToJson "/" default_appendToConflicts lodash_camelCase
       (VObj [("a", leaf)]) "a/c.js"
     = Ok (VObj [("a", VObj [("c", VStr "require('./a/c.js')")]); ("aJs", leaf)]).
Proof. cbv zeta. repeat split; vm_compute; reflexivity. Qed.




(** C7.  The leaf embeds the input path as it is, so its separators are
    the host's.  With the separator [\] the leaf of [search\account.js]
    holds the backslash where the claim has a forward slash.  The serialized
    pair is then outside the pattern of the lazy-binding rewriter, which
    leaves it eager, where the pair of the forward-slash path becomes a
    getter; and the file handler, which strips a leading [/] only, keeps
    the leading backslash, so that the whole tree hangs under the empty
    key. *)
Theorem leaf_path_keeps_backslash :
  filenameToJson "\" default_appendToConflicts lodash_camelCase
    (VObj []) "search\account.js"
  = Ok (VObj [("search", VObj [("account", VStr "require('./search\account.js')")])])
  /\ "require('./search\account.js')"
     <> "require('./" ++ join "/" (split "\" "search\account.js") ++ "')"
  /\ lazyJson (VObj [("search", VObj [("account", VStr "require('./search\account.js')")])])
     = greedyJson (VObj [("search", VObj [("account", VStr "require('./search\account.js')")])])
  /\ lazyJson (VObj [("search", VObj [("account", VStr "require('./search/account.js')")])])
     <> greedyJson (VObj [("search", VObj [("account", VStr "require('./search/account.js')")])])
  /\ on_file "\" default_appendToConflicts lodash_camelCase shouldBeIndexed
       "C:\app" (VObj []) "C:\app\search\account.js"
     = Ok (VObj [("", VObj [("search",
                   VObj [("account", VStr "require('./\search\account.js')")])])])
  /\ on_file "/" default_appendToConflicts lodash_camelCase shouldBeIndexed
       "/app" (VObj []) "/app/search/account.js"
     = Ok (VObj [("search", VObj [("account", VStr "require('./search/account.js')")])]).
Proof.
  split; [vm_compute; reflexivity |].
  split; [vm_compute; discriminate |].
  split; [vm_compute; reflexivity |].
  split; [vm_compute; discriminate |].
  split; vm_compute; reflexivity.
Qed.

(** ** The lazy-binding rewriter *)

Lemma span_class (p : ascii -> bool) (a r : string) :
  all_chars p a = true ->
  match r with EmptyString => True | String c _ => p c = false end ->
  span p (a ++ r) = (a, r).
Proof.
  intros Ha Hr. induction a as [|c a IH]; simpl in *.
  - destruct r as [|c r]; [reflexivity | simpl; now rewrite Hr].
  - apply andb_true_iff in Ha. destruct Ha as [Hc Ha].
    now rewrite Hc, (IH Ha).
Qed.

Lemma strip_prefix_app (lit r : string) : strip_prefix lit (lit ++ r) = Some r.
Proof.
  induction lit as [|c lit IH]; simpl; [reflexivity |].
  now rewrite Ascii.eqb_refl.
Qed.

Lemma replace_from_skip_all (s : string) (skip : nat) :
  String.length s <= skip -> replace_from s skip = "".
Proof.
  revert skip; induction s as [|c s IH]; intros skip H; [reflexivity |].
  destruct skip as [|n]; simpl in H; [lia |].
  cbn [replace_from]. apply IH. lia.
Qed.

(** A pair whose key is made of word characters and whose path is made of
    word characters, dots and slashes becomes a getter, the path unchanged. *)
Lemma convert_pair (key arg : string) :
  key <> "" -> all_chars is_word key = true ->
  arg <> "" -> all_chars is_path_char arg = true ->
  convertToLazyRequireJson (key ++ ": require('./" ++ arg ++ "')") = getter key arg.
Proof.
  intros Hk Hkw Ha Hap. unfold convertToLazyRequireJson.
  assert (Hm : match_at (key ++ ": require('./" ++ arg ++ "')") = Some (key, arg, "")).
  { unfold match_at. rewrite (span_class is_word key _ Hkw) by reflexivity.
    destruct key as [|k key]; [contradiction |].
    rewrite strip_prefix_app.
    rewrite (span_class is_path_char arg _ Hap) by reflexivity.
    destruct arg as [|a arg]; [contradiction |].
    reflexivity. }
  destruct key as [|k key]; [contradiction |].
  change (String k key ++ ": require('./" ++ arg ++ "')")
    with (String k (key ++ ": require('./" ++ arg ++ "')")) in *.
  cbn [replace_from]. rewrite Hm.
  rewrite replace_from_skip_all; [apply append_nil_r | simpl; lia].
Qed.

(** C3 at a path with a hyphen.  The pattern accepts only word characters,
    dots and slashes in the path, so the pair the builder and the renderer
    produce for [my-widget.js] is left as an eager [require]; a pair whose
    path stays in the class is rewritten, the path unchanged. *)
Theorem hyphenated_path_is_not_rewritten :
  convertToLazyRequireJson "myWidget: require('./my-widget.js')"
  = "myWidget: require('./my-widget.js')"
  /\ convertToLazyRequireJson "accountPage: require('./search/account.page.js')"
     = "get accountPage() { return require('./search/account.page.js'); }"
  /\ (exists json,
         build_tree "/" default_appendToConflicts lodash_camelCase ["my-widget.js"] = Ok json
         /\ greedyJson json
            = Some ("{" ++ newline ++ "    myWidget: require('./my-widget.js')" ++ newline ++ "}")
         /\ lazyJson json = greedyJson json).
Proof.
  split; [vm_compute; reflexivity | split; [vm_compute; reflexivity |]].
  eexists. split; [vm_compute; reflexivity |].
  split; vm_compute; reflexivity.
Qed.

(** ** Orders on keys *)

Lemma ltb_lt (a b : string) : String.ltb a b = true <-> String_as_OT.lt a b.
Proof.
  unfold String.ltb. rewrite <- String_as_OT.cmp_lt. unfold String_as_OT.cmp.
  destruct (String.compare a b); split; congruence.
Qed.

Lemma compare_refl (a : string) : String.compare a a = Eq.
Proof. exact (proj2 (String_as_OT.cmp_eq a a) eq_refl). Qed.

Lemma ltb_irrefl (a : string) : String.ltb a a = false.
Proof. unfold String.ltb. now rewrite compare_refl. Qed.

Lemma ltb_trans (a b c : string) :
  String.ltb a b = true -> String.ltb b c = true -> String.ltb a c = true.
Proof. rewrite !ltb_lt. apply String_as_OT.lt_trans. Qed.

Lemma leb_cases (a b : string) : String.leb a b = true <-> a = b \/ String.ltb a b = true.
Proof.
  unfold String.leb, String.ltb. destruct (String.compare a b) eqn:Hc.
  - apply String.compare_eq_iff in Hc. tauto.
  - tauto.
  - split; [discriminate | intros [-> | H]; [| discriminate]].
    now rewrite compare_refl in Hc.
Qed.

Lemma leb_trans (a b c : string) :
  String.leb a b = true -> String.leb b c = true -> String.leb a c = true.
Proof.
  rewrite !leb_cases. intros [-> | Hab] [-> | Hbc]; auto.
  right. eapply ltb_trans; eassumption.
Qed.

Lemma not_leb_leb (a b : string) : String.leb a b = false -> String.leb b a = true.
Proof. destruct (String.leb_total a b) as [H | H]; congruence. Qed.

(** An array index determines its key. *)
Lemma array_index_key (k : string) (n : N) : array_index k = Some n -> k = string_of_N n.
Proof.
  unfold array_index. destruct (NilZero.uint_of_string k) as [d|]; [| discriminate].
  cbv zeta. destruct (String.eqb_spec (string_of_N (N.of_uint d)) k) as [He|]; [| discriminate].
  destruct (N.of_uint d <=? 4294967294)%N; [| discriminate].
  simpl. intros [= <-]. now symmetry.
Qed.

Lemma js_key_lt_irrefl (a : string) : js_key_lt a a = false.
Proof.
  unfold js_key_lt. destruct (array_index a); [apply N.ltb_irrefl | apply ltb_irrefl].
Qed.

Lemma js_key_lt_trans (a b c : string) :
  js_key_lt a b = true -> js_key_lt b c = true -> js_key_lt a c = true.
Proof.
  unfold js_key_lt.
  destruct (array_index a), (array_index b), (array_index c); try congruence.
  - rewrite !N.ltb_lt. lia.
  - apply ltb_trans.
Qed.

Lemma ordered_cons (lt : string -> string -> bool) (k : string) (rest : list string) :
  ordered lt (k :: rest) = true <->
  (forall x, In x rest -> lt k x = true) /\ ordered lt rest = true.
Proof. cbn [ordered]. now rewrite andb_true_iff, forallb_forall. Qed.

Lemma ordered_snoc (lt : string -> string -> bool) (l : list string) (k : string) :
  ordered lt (l ++ [k])%list = true <->
  ordered lt l = true /\ (forall a, In a l -> lt a k = true).
Proof.
  induction l as [|a l IH].
  - simpl. intuition.
  - change ((a :: l) ++ [k])%list with (a :: (l ++ [k]))%list.
    rewrite !ordered_cons, IH. split.
    + intros (Ha & Hl & Hk). repeat split; auto.
      * intros x Hx. apply Ha, in_or_app. now left.
      * intros x [<- | Hx]; [apply Ha, in_or_app; right; now left | auto].
    + intros ((Ha & Hl) & Hk). repeat split; auto.
      * intros x Hx. apply in_app_or in Hx. destruct Hx as [Hx | [<- | []]]; auto.
        apply Hk. now left.
      * intros x Hx. apply Hk. now right.
Qed.

Lemma ordered_NoDup (lt : string -> string -> bool) (l : list string) :
  (forall a, lt a a = false) -> ordered lt l = true -> NoDup l.
Proof.
  intros Hirr. induction l as [|a l IH]; intros H; [constructor |].
  apply ordered_cons in H. destruct H as [Ha Hl]. constructor; auto.
  intros Hin. specialize (Ha a Hin). now rewrite Hirr in Ha.
Qed.

(** Two lists in strict order with the same elements are the same list. *)
Lemma ordered_unique (lt : string -> string -> bool) :
  (forall a, lt a a = false) ->
  (forall a b c, lt a b = true -> lt b c = true -> lt a c = true) ->
  forall l1 l2,
    ordered lt l1 = true -> ordered lt l2 = true ->
    (forall x, In x l1 <-> In x l2) -> l1 = l2.
Proof.
  intros Hirr Htrans. induction l1 as [|a l1 IH]; intros [|b l2] H1 H2 Hsame.
  - reflexivity.
  - destruct (proj2 (Hsame b)); now left.
  - destruct (proj1 (Hsame a)); now left.
  - apply ordered_cons in H1, H2. destruct H1 as [Ha H1], H2 as [Hb H2].
    assert (Hab : a = b).
    { destruct (proj1 (Hsame a) (or_introl eq_refl)) as [Heq | Hin]; [now symmetry |].
      destruct (proj2 (Hsame b) (or_introl eq_refl)) as [Heq | Hin']; [exact Heq |].
      pose proof (Htrans _ _ _ (Ha _ Hin') (Hb _ Hin)) as Hcyc.
      now rewrite Hirr in Hcyc. }
    subst b. f_equal. apply IH; auto.
    intros x. split; intros Hx.
    + destruct (proj1 (Hsame x) (or_intror Hx)) as [<- | Hin]; [| exact Hin].
      specialize (Ha _ Hx). now rewrite Hirr in Ha.
    + destruct (proj2 (Hsame x) (or_intror Hx)) as [<- | Hin]; [| exact Hin].
      specialize (Hb _ Hx). now rewrite Hirr in Hb.
Qed.

(** [array.sort()] orders the keys and keeps them. *)
Lemma sort_insert_in (k x : string) (ks : list string) :
  In x (sort_insert k ks) <-> x = k \/ In x ks.
Proof.
  induction ks as [|k' ks IH]; simpl; [intuition |].
  destruct (String.leb k k'); simpl; rewrite ?IH; intuition.
Qed.

Lemma array_sort_in (x : string) (ks : list string) : In x (array_sort ks) <-> In x ks.
Proof.
  induction ks as [|k ks IH]; simpl; [tauto |].
  rewrite sort_insert_in, IH. intuition.
Qed.

Lemma sort_insert_ordered (k : string) (ks : list string) :
  ordered String.leb ks = true -> ordered String.leb (sort_insert k ks) = true.
Proof.
  induction ks as [|k' ks IH]; intros H; [reflexivity |].
  cbn [sort_insert]. destruct (String.leb k k') eqn:Hle.
  - apply ordered_cons. split; [| exact H].
    apply ordered_cons in H. destruct H as [Hk' _].
    intros x [<- | Hx]; [exact Hle | eapply leb_trans; eauto].
  - apply ordered_cons in H. destruct H as [Hk' Hks].
    apply ordered_cons. split; [| auto].
    intros x Hx. apply sort_insert_in in Hx. destruct Hx as [-> | Hx]; auto.
    now apply not_leb_leb.
Qed.

Lemma array_sort_ordered (ks : list string) : ordered String.leb (array_sort ks) = true.
Proof.
  induction ks as [|k ks IH]; [reflexivity |]. now apply sort_insert_ordered.
Qed.

(** ** Enumeration order under assignment *)

Lemma insert_index_ordered (n : N) (k : string) (v : value) (ps : props) :
  array_index k = Some n ->
  ~ In k (keys ps) ->
  ordered js_key_lt (keys ps) = true ->
  ordered js_key_lt (keys (obj_insert_index n k v ps)) = true.
Proof.
  intros Hk. induction ps as [|[k' v'] ps IH]; intros Hfresh Hord; [reflexivity |].
  cbn [keys map fst] in Hfresh, Hord. fold (keys ps) in Hfresh, Hord.
  apply ordered_cons in Hord. destruct Hord as [Hk' Hps].
  assert (Hlt : forall n', array_index k' = Some n' -> (n' <? n)%N = false ->
                           js_key_lt k k' = true).
  { intros n' Hn' Hge. unfold js_key_lt. rewrite Hk, Hn'.
    apply N.ltb_lt. apply N.ltb_ge in Hge.
    assert (n <> n'); [| lia]. intros ->. apply Hfresh. left.
    rewrite (array_index_key _ _ Hk), (array_index_key _ _ Hn'). reflexivity. }
  assert (Hfront : js_key_lt k k' = true ->
                   ordered js_key_lt (k :: k' :: keys ps) = true).
  { intros Hkk'. apply ordered_cons. split.
    - intros x [<- | Hx]; [exact Hkk' | eapply js_key_lt_trans; eauto].
    - apply ordered_cons. auto. }
  cbn [obj_insert_index]. destruct (array_index k') as [n'|] eqn:Hn'.
  - destruct (n' <? n)%N eqn:Hcmp.
    + cbn [keys map fst]. fold (keys (obj_insert_index n k v ps)).
      apply ordered_cons. split.
      * intros x Hx. apply keys_obj_insert_index in Hx. destruct Hx as [-> | Hx]; auto.
        unfold js_key_lt. now rewrite Hn', Hk.
      * apply IH; [intros Hin; apply Hfresh; now right | exact Hps].
    + apply Hfront. eauto.
  - apply Hfront. unfold js_key_lt. now rewrite Hk, Hn'.
Qed.

(** Assigning a key that no earlier key follows in code-unit order keeps the
    enumeration in [js_key_lt] order. *)
Lemma obj_set_ordered (ps : props) (k : string) (v : value) :
  ordered js_key_lt (keys ps) = true ->
  (forall a, In a (keys ps) -> String.leb a k = true) ->
  ordered js_key_lt (keys (obj_set ps k v)) = true.
Proof.
  intros Hord Hbound. unfold obj_set. destruct (has_key k ps) eqn:Hhas.
  - now rewrite keys_obj_replace.
  - assert (Hfresh : ~ In k (keys ps)).
    { rewrite obj_lookup_in_keys, <- has_key_lookup. congruence. }
    destruct (array_index k) as [n|] eqn:Hk.
    + now apply insert_index_ordered.
    + unfold keys. rewrite map_app. cbn [map fst]. apply ordered_snoc.
      split; [exact Hord |].
      intros a Ha. unfold js_key_lt. rewrite Hk.
      destruct (array_index a); [reflexivity |].
      destruct (proj1 (leb_cases a k) (Hbound a Ha)) as [-> | Hlt]; [contradiction | exact Hlt].
Qed.

Lemma fill_sorted_ext (f g : string -> value) (ks : list string) :
  (forall k, f k = g k) -> forall acc, fill_sorted f ks acc = fill_sorted g ks acc.
Proof.
  intros Hfg. unfold fill_sorted.
  induction ks as [|k ks IH]; intros acc; simpl; [reflexivity |].
  now rewrite Hfg, IH.
Qed.

(** Filling an object key by key, the keys taken in ascending code-unit
    order. *)
Lemma fill_sorted_spec (child : string -> value) (ks : list string) :
  forall acc,
    ordered String.leb ks = true ->
    ordered js_key_lt (keys acc) = true ->
    (forall a k, In a (keys acc) -> In k ks -> String.leb a k = true) ->
    (forall a, In a (keys acc) -> obj_lookup a acc = Some (child a)) ->
    ordered js_key_lt (keys (fill_sorted child ks acc)) = true
    /\ (forall x, In x (keys (fill_sorted child ks acc)) <-> In x (keys acc) \/ In x ks)
    /\ (forall a, In a (keys (fill_sorted child ks acc)) ->
                  obj_lookup a (fill_sorted child ks acc) = Some (child a)).
Proof.
  induction ks as [|k ks IH]; intros acc Hks Hord Hbound Hval.
  - cbn [fill_sorted fold_left].
    split; [exact Hord | split; [intros x; simpl; tauto | exact Hval]].
  - apply ordered_cons in Hks. destruct Hks as [Hk Hks].
    change (fill_sorted child (k :: ks) acc)
      with (fill_sorted child ks (obj_set acc k (child k))).
    destruct (IH (obj_set acc k (child k))) as (Ho & Hin & Hv).
    + exact Hks.
    + apply obj_set_ordered; [exact Hord |]. intros a Ha. apply Hbound; [exact Ha | now left].
    + intros a k' Ha Hk'. apply keys_obj_set in Ha. destruct Ha as [-> | Ha].
      * now apply Hk.
      * apply Hbound; [exact Ha | now right].
    + intros a Ha. rewrite obj_lookup_set.
      destruct (String.eqb_spec k a) as [-> | Hne]; [reflexivity |].
      apply keys_obj_set in Ha. destruct Ha as [-> | Ha]; [contradiction | auto].
    + split; [exact Ho | split; [| exact Hv]].
      intros x. rewrite Hin, keys_obj_set. simpl. intuition.
Qed.

Lemma props_ext (p1 p2 : props) :
  keys p1 = keys p2 ->
  NoDup (keys p1) ->
  (forall k, In k (keys p1) -> obj_lookup k p1 = obj_lookup k p2) ->
  p1 = p2.
Proof.
  revert p2. induction p1 as [|[k1 v1] p1 IH]; intros [|[k2 v2] p2] Hkeys Hnd Hval;
    try discriminate; [reflexivity |].
  cbn [keys map fst] in Hkeys, Hnd. injection Hkeys as <- Hkeys.
  apply NoDup_cons_iff in Hnd. destruct Hnd as [Hfresh Hnd].
  pose proof (Hval k1 (or_introl eq_refl)) as Hhead.
  cbn [obj_lookup] in Hhead. rewrite String.eqb_refl in Hhead. injection Hhead as <-.
  f_equal. apply IH; auto.
  intros k Hk. specialize (Hval k (or_intror Hk)). cbn [obj_lookup] in Hval.
  destruct (String.eqb_spec k1 k) as [-> | Hne]; [contradiction | exact Hval].
Qed.

Lemma in_obj_lookup (k : string) (v : value) (ps : props) :
  NoDup (keys ps) -> In (k, v) ps -> obj_lookup k ps = Some v.
Proof.
  induction ps as [|[k' v'] ps IH]; intros Hnd Hin; [contradiction |].
  cbn [keys map fst] in Hnd. apply NoDup_cons_iff in Hnd. destruct Hnd as [Hfresh Hnd].
  cbn [obj_lookup]. destruct Hin as [[= -> ->] | Hin].
  - now rewrite String.eqb_refl.
  - destruct (String.eqb_spec k' k) as [-> | Hne]; [| auto].
    exfalso. apply Hfresh. change k with (fst (k, v)). now apply in_map.
Qed.

Lemma ordered_weaken (lt1 lt2 : string -> string -> bool) (l : list string) :
  (forall a b, In a l -> In b l -> lt1 a b = true -> lt2 a b = true) ->
  ordered lt1 l = true -> ordered lt2 l = true.
Proof.
  induction l as [|a l IH]; intros Himp H; [reflexivity |].
  apply ordered_cons in H. destruct H as [Ha Hl]. apply ordered_cons. split.
  - intros x Hx. apply Himp; [now left | now right | auto].
  - apply IH; [| exact Hl]. intros x y Hx Hy. apply Himp; now right.
Qed.

(** ** The deterministic serializer *)

(** Induction on values, the hypothesis available for every property value. *)
Lemma value_ind_nested (P : value -> Prop) :
  P VUndef -> (forall n, P (VNum n)) -> (forall s, P (VStr s)) ->
  (forall ps, (forall k v, In (k, v) ps -> P v) -> P (VObj ps)) ->
  forall v, P v.
Proof.
  intros Hu Hn Hs Ho. fix IH 1.
  intros [| n | s | ps]; [exact Hu | apply Hn | apply Hs |].
  apply Ho. induction ps as [|[k v] ps IHps]; intros k' v' Hin.
  - contradiction.
  - destruct Hin as [Heq | Hin]; [| exact (IHps k' v' Hin)].
    injection Heq as _ <-. apply IH.
Qed.

Lemma sortJson_node (ps : props) :
  sortJson (VObj ps) = VObj (fill_sorted (sorted_child ps) (array_sort (keys ps)) []).
Proof.
  cbn [sortJson]. f_equal. apply fill_sorted_ext. intros key.
  unfold sorted_child. induction ps as [|[k v] ps IH]; cbn [obj_lookup]; [reflexivity |].
  destruct (String.eqb k key); [reflexivity | exact IH].
Qed.

(** The node [sortJson] builds: same keys, [js_key_lt] order, sorted children. *)
Lemma sortJson_node_spec (ps : props) :
  let sorted := fill_sorted (sorted_child ps) (array_sort (keys ps)) [] in
  ordered js_key_lt (keys sorted) = true
  /\ (forall k, In k (keys sorted) <-> In k (keys ps))
  /\ (forall k, In k (keys sorted) -> obj_lookup k sorted = Some (sorted_child ps k)).
Proof.
  cbv zeta.
  destruct (@fill_sorted_spec (sorted_child ps) (array_sort (keys ps)) [])
    as (Ho & Hin & Hv); try (intros; contradiction); try reflexivity.
  - apply array_sort_ordered.
  - split; [exact Ho | split; [| exact Hv]].
    intros k. rewrite Hin, array_sort_in. simpl. tauto.
Qed.

Lemma sortJson_node_NoDup (ps : props) :
  NoDup (keys (fill_sorted (sorted_child ps) (array_sort (keys ps)) [])).
Proof.
  apply (ordered_NoDup js_key_lt); [apply js_key_lt_irrefl |].
  apply (sortJson_node_spec ps).
Qed.

(** C8.  Sorting a sorted tree again gives the same tree. *)
Theorem sortJson_idempotent (json : value) : sortJson (sortJson json) = sortJson json.
Proof.
  induction json as [| n | s | ps IH] using value_ind_nested; try reflexivity.
  rewrite (sortJson_node ps).
  set (once := fill_sorted (sorted_child ps) (array_sort (keys ps)) []).
  rewrite (sortJson_node once).
  destruct (sortJson_node_spec ps) as (Hord1 & Hin1 & Hval1). fold once in Hord1, Hin1, Hval1.
  destruct (sortJson_node_spec once) as (Hord2 & Hin2 & Hval2).
  f_equal. apply props_ext.
  - apply (ordered_unique js_key_lt);
      [apply js_key_lt_irrefl | apply js_key_lt_trans | exact Hord2 | exact Hord1 | exact Hin2].
  - apply sortJson_node_NoDup.
  - intros k Hk. rewrite (Hval2 k Hk). apply Hin2 in Hk. rewrite (Hval1 k Hk).
    f_equal. unfold sorted_child at 1. rewrite (Hval1 k Hk).
    apply Hin1 in Hk. apply obj_lookup_in_keys in Hk. destruct Hk as [v Hv].
    unfold sorted_child. rewrite Hv. apply (IH k v). now apply obj_lookup_in.
Qed.

Lemma sortJson_ordered_tree (json : value) : ordered_tree js_key_lt (sortJson json) = true.
Proof.
  induction json as [| n | s | ps IH] using value_ind_nested; try reflexivity.
  rewrite sortJson_node. cbn [ordered_tree].
  destruct (sortJson_node_spec ps) as (Hord & Hin & Hval).
  apply andb_true_iff. split; [exact Hord |].
  apply forallb_forall. intros [k v] Hkv. cbn [snd].
  assert (Hk : In k (keys (fill_sorted (sorted_child ps) (array_sort (keys ps)) []))).
  { change k with (fst (k, v)). now apply in_map. }
  pose proof (in_obj_lookup k v _ (sortJson_node_NoDup ps) Hkv) as Hlook.
  rewrite (Hval k Hk) in Hlook. injection Hlook as <-.
  unfold sorted_child. destruct (obj_lookup k ps) as [v0|] eqn:Hv0; [| reflexivity].
  apply (IH k v0). now apply obj_lookup_in.
Qed.

(** C5, as the code has it.  [sortJson] returns a value for every tree
    none of whose namespace nodes owns the key [__proto__], which the
    assignment in [sorted] would not store.  A value that is not an object
    is returned unchanged.  A namespace node becomes a namespace node with
    the same keys, each once and each holding the sorted child, enumerated
    with the array-index keys first in ascending numeric order and the other
    keys after them in ascending code-unit order; when no key is an array
    index this is the ascending code-unit order of all keys.  Every
    namespace node of the result, the root included, enumerates its keys
    that way. *)
Theorem sortJson_enumeration (json : value) :
  proto_free json = true ->
  (isObject json = false -> sortJson json = json)
  /\ (forall ps,
         json = VObj ps ->
         exists sorted,
           sortJson json = VObj sorted
           /\ (forall k, In k (keys sorted) <-> In k (keys ps))
           /\ NoDup (keys sorted)
           /\ ordered js_key_lt (keys sorted) = true
           /\ (forallb (fun k => negb (is_array_index k)) (keys ps) = true ->
               ordered String.ltb (keys sorted) = true)
           /\ (forall k v, obj_lookup k ps = Some v ->
                           obj_lookup k sorted = Some (sortJson v)))
  /\ ordered_tree js_key_lt (sortJson json) = true.
Proof.
  intros _.
  split; [| split; [| apply sortJson_ordered_tree]].
  - destruct json; try reflexivity. discriminate.
  - intros ps ->. rewrite sortJson_node.
    destruct (sortJson_node_spec ps) as (Hord & Hin & Hval).
    eexists. split; [reflexivity |].
    split; [exact Hin | split; [apply sortJson_node_NoDup | split; [exact Hord | split]]].
    + intros Hplain. rewrite forallb_forall in Hplain.
      apply (ordered_weaken js_key_lt); [| exact Hord].
      intros a b Ha Hb. apply Hin in Ha, Hb.
      pose proof (Hplain a Ha) as Hpa. pose proof (Hplain b Hb) as Hpb.
      unfold is_array_index in Hpa, Hpb. unfold js_key_lt.
      destruct (array_index a), (array_index b); try discriminate. auto.
    + intros k v Hv. rewrite Hval.
      * unfold sorted_child. now rewrite Hv.
      * apply Hin, obj_lookup_in_keys. eauto.
Qed.

(** A node without array-index keys comes out in code-unit order. *)
Lemma sortJson_enumeration_witness :
  ordered String.ltb
    (keys_of (sortJson (VObj [("util", VStr "require('./util.js')");
                              ("search", VObj []);
                              ("Zeta", VStr "require('./Zeta.js')")]))) = true.
Proof.
  destruct (proj1 (proj2 (sortJson_enumeration
              (VObj [("util", VStr "require('./util.js')");
                     ("search", VObj []);
                     ("Zeta", VStr "require('./Zeta.js')")]) eq_refl)) _ eq_refl)
    as (sorted & Hsorted & _ & _ & _ & Hlex & _).
  rewrite Hsorted. apply Hlex. reflexivity.
Defined.

(** C5 as stated fails: the directories [10] and [9] give the keys [10] and
    [9]; [sort] orders them [10], [9], yet the sorted node enumerates [9]
    before [10], which is not the ascending code-unit order. *)
Lemma sortJson_array_index_keys_first :
  exists json,
    build_tree "/" default_appendToConflicts lodash_camelCase ["10/a.js"; "9/a.js"] = Ok json
    /\ array_sort (keys_of json) = ["10"; "9"]
    /\ keys_of (sortJson json) = ["9"; "10"]
    /\ ordered String.ltb (keys_of (sortJson json)) = false.
Proof.
  eexists. split; [vm_compute; reflexivity |].
  repeat split; vm_compute; reflexivity.
Qed.

(** * Further properties of the module *)

(** ** Assignments that change nothing *)

Lemma obj_replace_same (k : string) (v : value) (ps : props) :
  obj_lookup k ps = Some v -> obj_replace k v ps = ps.
Proof.
  induction ps as [|[k' v'] ps IH]; simpl; [reflexivity |].
  destruct (String.eqb_spec k' k) as [->|Hne].
  - now intros [= ->].
  - intros H. now rewrite IH.
Qed.

Lemma obj_set_same (k : string) (v : value) (ps : props) :
  obj_lookup k ps = Some v -> obj_set ps k v = ps.
Proof.
  intros H. unfold obj_set, has_key. rewrite H. now apply obj_replace_same.
Qed.

Lemma keys_obj_set_incl (k k' : string) (v : value) (ps : props) :
  In k' (keys ps) -> In k' (keys (obj_set ps k v)).
Proof. intros H. apply keys_obj_set. now right. Qed.

(** ** The conflict resolver *)

Section ConflictFacts.

Variable appendToConflicts : string.

Local Abbreviation resolve := (handleConflicts appendToConflicts).

(** A leaf at [parentKey] of a namespace node is moved to the conflict key
    and [parentKey] restarts as an empty namespace node; every other key keeps
    its value and no key disappears.  The conflict marker must not be empty,
    or the conflict key would be [parentKey] itself, and the conflict key
    must not be [__proto__], whose assignment stores no property. *)
Theorem handleConflicts_relocates (ps : props) (parentKey leaf : string) :
  obj_lookup parentKey ps = Some (VStr leaf) ->
  startsWith leaf "require(" = true ->
  appendToConflicts <> "" ->
  parentKey ++ appendToConflicts <> "__proto__" ->
  exists ps',
    resolve (VObj ps) parentKey = Ok (VObj ps')
    /\ obj_lookup parentKey ps' = Some (VObj [])
    /\ obj_lookup (parentKey ++ appendToConflicts) ps' = Some (VStr leaf)
    /\ (forall k, k <> parentKey -> k <> parentKey ++ appendToConflicts ->
                  obj_lookup k ps' = obj_lookup k ps)
    /\ (forall k, In k (keys ps) -> In k (keys ps')).
Proof.
  intros Hleaf Hreq Hmarker _.
  assert (Hdiff : parentKey ++ appendToConflicts <> parentKey).
  { intros Heq. apply Hmarker.
    assert (Hlen : String.length (parentKey ++ appendToConflicts) = String.length parentKey)
      by now rewrite Heq.
    rewrite length_append in Hlen.
    destruct appendToConflicts; [reflexivity | simpl in Hlen; lia]. }
  rewrite handleConflicts_node, Hleaf. cbn [baseToString]. rewrite Hreq.
  eexists. split; [reflexivity |]. repeat split.
  - now rewrite obj_lookup_set, String.eqb_refl.
  - rewrite !obj_lookup_set, String.eqb_refl.
    now rewrite (proj2 (String.eqb_neq _ _) (not_eq_sym Hdiff)).
  - intros k Hk Hk'. rewrite !obj_lookup_set.
    rewrite (proj2 (String.eqb_neq _ _) (not_eq_sym Hk)).
    now rewrite (proj2 (String.eqb_neq _ _) (not_eq_sym Hk')).
  - intros k Hk. now apply keys_obj_set_incl, keys_obj_set_incl.
Qed.

(** Whatever the tree and the key, resolving a second time changes nothing:
    after a first call the slot no longer holds a leaf. *)
Theorem handleConflicts_idempotent (treeObject : value) (parentKey : string) :
  (t <- resolve treeObject parentKey ;; resolve t parentKey)
  = resolve treeObject parentKey.
Proof.
  destruct treeObject as [| n | s | ps].
  - reflexivity.
  - reflexivity.
  - assert (Hstr : resolve (VStr s) parentKey = Ok (VStr s)).
    { unfold handleConflicts, js_get.
      destruct (String.eqb parentKey "length"); [| destruct (array_index parentKey) as [n|];
        [destruct (String.get (N.to_nat n) s) |]]; cbn [bind];
      match goal with |- context [startsWith ?x ?y] => destruct (startsWith x y) end;
      reflexivity. }
    rewrite Hstr. cbn [bind]. exact Hstr.
  - rewrite handleConflicts_node.
    destruct (obj_lookup parentKey ps) as [cur|] eqn:Hcur.
    + destruct (startsWith (baseToString cur) "require(") eqn:Hreq; cbn [bind].
      * rewrite handleConflicts_node, obj_lookup_set, String.eqb_refl. reflexivity.
      * rewrite handleConflicts_node, Hcur, Hreq. reflexivity.
    + cbn [bind]. rewrite handleConflicts_node, Hcur. reflexivity.
Qed.

End ConflictFacts.

(** With an empty conflict marker the conflict key is [parentKey] itself:
    the leaf is overwritten by the empty namespace node and is stored under
    no key any more. *)
Theorem handleConflicts_empty_marker (ps : props) (parentKey leaf : string) :
  obj_lookup parentKey ps = Some (VStr leaf) ->
  startsWith leaf "require(" = true ->
  handleConflicts "" (VObj ps) parentKey = Ok (VObj (obj_replace parentKey (VObj []) ps)).
Proof.
  intros Hleaf Hreq. rewrite handleConflicts_node, Hleaf. cbn [baseToString].
  rewrite Hreq, append_nil_r. rewrite (obj_set_same _ _ _ Hleaf).
  unfold obj_set, has_key. now rewrite Hleaf.
Qed.

(** ** Paths through the tree *)

Lemma lookup_path_app (v : value) (p q : list string) :
  lookup_path v (p ++ q)%list = (c <- lookup_path v p ;; lookup_path c q).
Proof.
  revert v; induction p as [|k p IH]; intros v; [reflexivity |].
  cbn [app lookup_path]. destruct (js_get v k) as [c|e]; cbn [bind]; [apply IH | reflexivity].
Qed.

Lemma js_get_primitive (v : value) (k : string) (c : value) :
  isObject v = false -> js_get v k = Ok c -> isObject c = false.
Proof.
  destruct v as [| n | s | ps]; cbn [isObject js_get]; try discriminate.
  - intros _ [= <-]. reflexivity.
  - intros _. destruct (String.eqb k "length"); [intros [= <-]; reflexivity |].
    destruct (array_index k) as [n|]; [destruct (String.get (N.to_nat n) s) |];
      intros [= <-]; reflexivity.
Qed.

(** No key path leads from a primitive to a namespace node. *)
Lemma lookup_path_primitive (path : list string) :
  forall v c, isObject v = false -> lookup_path v path = Ok c -> isObject c = false.
Proof.
  induction path as [|k path IH]; intros v c Hv; cbn [lookup_path].
  - now intros [= <-].
  - destruct (js_get v k) as [x|e] eqn:Hget; cbn [bind]; [| discriminate].
    apply IH. eapply js_get_primitive; eassumption.
Qed.

Lemma lookup_path_node (v : value) (k : string) (rest : list string) (node : props) :
  lookup_path v (k :: rest) = Ok (VObj node) ->
  exists ps c, v = VObj ps /\ obj_lookup k ps = Some c /\ c <> VUndef
               /\ lookup_path c rest = Ok (VObj node).
Proof.
  intros H. destruct v as [| n | s | ps].
  - discriminate.
  - apply lookup_path_primitive in H; [discriminate | reflexivity].
  - apply lookup_path_primitive in H; [discriminate | reflexivity].
  - cbn [lookup_path js_get] in H. destruct (obj_lookup k ps) as [c|] eqn:Hc; cbn [bind] in H.
    + exists ps, c. repeat split; auto. intros ->.
      destruct rest; cbn [lookup_path js_get bind] in H; discriminate.
    + destruct rest; cbn [lookup_path js_get bind] in H; discriminate.
Qed.

(** ** More on the tree builder *)

Section BuilderMore.

Variable sep : ascii.
Variable appendToConflicts : string.
Variable camelCase : string -> string.

Local Abbreviation resolve := (handleConflicts appendToConflicts).
Local Abbreviation attach := (attachFilenameToLeafNode appendToConflicts camelCase).
Local Abbreviation reduce := (walk appendToConflicts camelCase).
Local Abbreviation insert := (filenameToJson sep appendToConflicts camelCase).

(** Walking to a node that already holds the leaf changes nothing. *)
Lemma walk_present (filenamePart filename : string) (dirs : list string) :
  forall t node,
    dirs <> [] ->
    lookup_path t dirs = Ok (VObj node) ->
    obj_lookup (camelCase filenamePart) node = Some (VStr (require_expr filename)) ->
    reduce filenamePart filename dirs (Z.of_nat (List.length dirs)) t = Ok t.
Proof.
  induction dirs as [|d rest IH]; [contradiction |]. intros t node _ Hpath Hleaf.
  destruct (lookup_path_node _ _ _ _ Hpath) as (ps & c & -> & Hc & Hdef & Hrest).
  rewrite walk_cons. cbn [js_get]. rewrite Hc. cbn [bind].
  replace (is_undefined c) with false by (destruct c; [contradiction | | |]; reflexivity).
  cbn [bind].
  replace (Z.of_nat (List.length (d :: rest)) - 1)%Z with (Z.of_nat (List.length rest))
    by (cbn [List.length]; lia).
  destruct rest as [|d' rest'].
  - cbn [lookup_path] in Hrest. injection Hrest as ->.
    cbn [List.length Z.of_nat Z.eqb]. unfold attachFilenameToLeafNode.
    rewrite handleConflicts_node, Hc.
    replace (startsWith (baseToString (VObj node)) "require(") with false by reflexivity.
    cbn [bind js_get].
    rewrite Hc. cbn [bind js_set]. rewrite (obj_set_same _ _ _ Hleaf).
    cbn [bind store_child]. rewrite (obj_replace_same _ _ _ Hc).
    cbn [js_get]. rewrite Hc. cbn [bind walk store_child].
    now rewrite (obj_replace_same _ _ _ Hc).
  - replace (Z.of_nat (List.length (d' :: rest')) =? 0)%Z with false
      by (cbn [List.length]; symmetry; apply Z.eqb_neq; lia).
    cbn [bind js_get]. rewrite Hc. cbn [bind].
    rewrite (IH c node ltac:(discriminate) Hrest Hleaf). cbn [bind store_child].
    now rewrite (obj_replace_same _ _ _ Hc).
Qed.

(** Inserting a path a second time leaves the tree as the first insertion
    made it, when the walk stays inside namespace nodes and neither the tree
    nor the path brings the name of a member of [Object.prototype]. *)
Theorem filenameToJson_twice (t : value) (filename : string) :
  walkable t (directories sep filename) = true ->
  plain_insertion sep appendToConflicts camelCase t filename = true ->
  exists t', insert t filename = Ok t' /\ insert t' filename = Ok t'.
Proof.
  intros Hw _.
  destruct (filenameToJson_reaches sep appendToConflicts camelCase t filename Hw)
    as (t' & node & Hins & Hpath & Hleaf).
  exists t'. split; [exact Hins |].
  clear Hins Hw. revert Hpath Hleaf.
  unfold filenameToJson, directories, filename_part.
  set (dirs := removelast (split sep filename)).
  set (part := slice (last (split sep filename) "") 0 (Some (-3)%Z)).
  intros Hpath Hleaf. destruct dirs as [|d rest] eqn:Hdirs.
  - cbn [lookup_path] in Hpath. injection Hpath as ->.
    cbn [List.length Z.of_nat Z.eqb attachFilenameToLeafNode js_set bind walk].
    now rewrite (obj_set_same _ _ _ Hleaf).
  - replace (Z.of_nat (List.length (d :: rest)) =? 0)%Z with false
      by (cbn [List.length]; symmetry; apply Z.eqb_neq; lia).
    cbn [bind]. eapply walk_present; [discriminate | eassumption | exact Hleaf].
Qed.

Lemma frame_refl (touched : list string) (ps : props) : frame touched ps ps.
Proof. split; auto. Qed.

Lemma frame_trans (touched : list string) (ps1 ps2 ps3 : props) :
  frame touched ps1 ps2 -> frame touched ps2 ps3 -> frame touched ps1 ps3.
Proof.
  intros [Hk1 Hv1] [Hk2 Hv2]. split; [auto |].
  intros k Hk. now rewrite Hv2, Hv1.
Qed.

Lemma frame_set (touched : list string) (ps : props) (k : string) (v : value) :
  In k touched -> frame touched ps (obj_set ps k v).
Proof.
  intros Hk. split.
  - intros k'. apply keys_obj_set_incl.
  - intros k' Hk'. rewrite obj_lookup_set.
    destruct (String.eqb_spec k k') as [<- | _]; [contradiction | reflexivity].
Qed.

Lemma frame_replace (touched : list string) (ps : props) (k : string) (v : value) :
  In k touched -> frame touched ps (obj_replace k v ps).
Proof.
  intros Hk. split.
  - intros k'. now rewrite keys_obj_replace.
  - intros k' Hk'. rewrite obj_lookup_replace.
    destruct (String.eqb_spec k k') as [<- | _]; [contradiction | reflexivity].
Qed.

Lemma attach_frame (ps : props) (filenamePart fullLocation parentKey : string) (t : value) :
  attach (VObj ps) filenamePart fullLocation (Some parentKey) = Ok t ->
  exists ps', t = VObj ps'
              /\ frame [parentKey; parentKey ++ appendToConflicts] ps ps'.
Proof.
  unfold attachFilenameToLeafNode.
  assert (Hres : exists ps1, resolve (VObj ps) parentKey = Ok (VObj ps1)
                             /\ frame [parentKey; parentKey ++ appendToConflicts] ps ps1).
  { rewrite handleConflicts_node. destruct (obj_lookup parentKey ps) as [cur|].
    - destruct (startsWith (baseToString cur) "require(").
      + eexists. split; [reflexivity |].
        eapply frame_trans; apply frame_set; simpl; auto.
      + eexists. split; [reflexivity | apply frame_refl].
    - eexists. split; [reflexivity | apply frame_refl]. }
  destruct Hres as (ps1 & -> & Hf1). cbn [bind].
  destruct (js_get (VObj ps1) parentKey) as [child|e]; cbn [bind]; [| discriminate].
  destruct (js_set child (camelCase filenamePart) (VStr (require_expr fullLocation)))
    as [child'|e]; cbn [bind store_child]; [| discriminate].
  intros [= <-]. eexists. split; [reflexivity |].
  eapply frame_trans; [exact Hf1 | apply frame_replace; simpl; auto].
Qed.

(** An insertion into a namespace node that returns keeps every root key,
    and changes the value of no root key other than the ones it addresses:
    the leaf key of a file at the root, else the first directory segment and
    its conflict key. *)
Theorem filenameToJson_frame (ps : props) (filename : string) (t' : value) :
  insert (VObj ps) filename = Ok t' ->
  exists ps', t' = VObj ps'
              /\ frame (touched_keys sep appendToConflicts camelCase filename) ps ps'.
Proof.
  unfold filenameToJson, touched_keys, directories, filename_part.
  set (dirs := removelast (split sep filename)).
  set (part := slice (last (split sep filename) "") 0 (Some (-3)%Z)).
  destruct dirs as [|d rest].
  - cbn [List.length Z.of_nat Z.eqb attachFilenameToLeafNode js_set bind walk].
    intros [= <-]. eexists. split; [reflexivity | apply frame_set; simpl; auto].
  - replace (Z.of_nat (List.length (d :: rest)) =? 0)%Z with false
      by (cbn [List.length]; symmetry; apply Z.eqb_neq; lia).
    cbn [bind]. rewrite walk_cons.
    assert (Hfill : exists ps1,
               (cur <- js_get (VObj ps) d ;;
                if is_undefined cur then js_set (VObj ps) d (VObj []) else Ok (VObj ps))
               = Ok (VObj ps1) /\ frame [d; d ++ appendToConflicts] ps ps1).
    { cbn [js_get]. destruct (obj_lookup d ps) as [c|]; cbn [bind].
      - destruct c; cbn [is_undefined js_set]; eexists;
          (split; [reflexivity | first [apply frame_refl | apply frame_set; simpl; auto]]).
      - cbn [is_undefined js_set]. eexists.
        split; [reflexivity | apply frame_set; simpl; auto]. }
    destruct Hfill as (ps1 & -> & Hf1). cbn [bind].
    set (n := (Z.of_nat (List.length (d :: rest)) - 1)%Z).
    assert (Hattach : forall t2,
               (if (n =? 0)%Z then attach (VObj ps1) part filename (Some d)
                else Ok (VObj ps1)) = Ok t2 ->
               exists ps2, t2 = VObj ps2 /\ frame [d; d ++ appendToConflicts] ps1 ps2).
    { intros t2. destruct (n =? 0)%Z.
      - apply attach_frame.
      - intros [= <-]. eexists. split; [reflexivity | apply frame_refl]. }
    destruct (if (n =? 0)%Z then attach (VObj ps1) part filename (Some d)
              else Ok (VObj ps1)) as [t2|e]; cbn [bind]; [| discriminate].
    destruct (Hattach t2 eq_refl) as (ps2 & -> & Hf2).
    destruct (js_get (VObj ps2) d) as [next|e]; cbn [bind]; [| discriminate].
    destruct (reduce part filename rest n next) as [next'|e]; cbn [bind store_child];
      [| discriminate].
    intros [= <-]. eexists. split; [reflexivity |].
    eapply frame_trans; [exact Hf1 |].
    eapply frame_trans; [exact Hf2 | apply frame_replace; simpl; auto].
Qed.

(** A leaf met at a directory segment that is not the last one stops the
    insertion: when the next segment names no own property of the leaf
    string, and no method of strings either since it has a character that
    no identifier has, the insertion throws a [TypeError]. *)
Theorem filenameToJson_through_leaf (ps : props) (filename : string)
    (d d2 : string) (rest : list string) (leaf : string) :
  directories sep filename = d :: d2 :: rest ->
  obj_lookup d ps = Some (VStr leaf) ->
  js_get (VStr leaf) d2 = Ok VUndef ->
  all_chars is_identifier_char d2 = false ->
  insert (VObj ps) filename = Throw TypeError.
Proof.
  intros Hdirs Hd Hd2 _. unfold filenameToJson.
  change (removelast (split sep filename)) with (directories sep filename).
  rewrite Hdirs.
  set (part := slice (last (split sep filename) "") 0 (Some (-3)%Z)).
  replace (Z.of_nat (List.length (d :: d2 :: rest)) =? 0)%Z with false
    by (cbn [List.length]; symmetry; apply Z.eqb_neq; lia).
  cbn [bind]. rewrite walk_cons. cbn [js_get]. rewrite Hd.
  cbn [bind is_undefined].
  replace (Z.of_nat (List.length (d :: d2 :: rest)) - 1 =? 0)%Z with false
    by (cbn [List.length]; symmetry; apply Z.eqb_neq; lia).
  cbn [bind js_get]. rewrite Hd. cbn [bind].
  replace (Z.of_nat (List.length (d :: d2 :: rest)) - 1)%Z
    with (Z.of_nat (List.length (d2 :: rest))) by (cbn [List.length]; lia).
  rewrite walk_cons, Hd2. cbn [bind is_undefined js_set].
  replace (Z.of_nat (List.length (d2 :: rest)) - 1)%Z with (Z.of_nat (List.length rest))
    by (cbn [List.length]; lia).
  destruct rest as [|d3 rest].
  - cbn [List.length Z.of_nat Z.eqb]. unfold attachFilenameToLeafNode, handleConflicts.
    rewrite Hd2. cbn [bind baseToString]. 
    replace (startsWith "" "require(") with false by reflexivity.
    cbn [bind]. rewrite Hd2. reflexivity.
  - replace (Z.of_nat (List.length (d3 :: rest)) =? 0)%Z with false
      by (cbn [List.length]; symmetry; apply Z.eqb_neq; lia).
    cbn [bind]. rewrite Hd2. cbn [bind]. rewrite walk_cons. reflexivity.
Qed.

End BuilderMore.

(** ** Sorting and reading *)

Lemma js_get_sortJson (t : value) (k : string) :
  js_get (sortJson t) k = (c <- js_get t k ;; Ok (sortJson c)).
Proof.
  destruct t as [| n | s | ps]; try reflexivity.
  - cbn [sortJson js_get]. destruct (String.eqb k "length"); [reflexivity |].
    destruct (array_index k) as [n|]; [destruct (String.get (N.to_nat n) s) |]; reflexivity.
  - rewrite sortJson_node. cbn [js_get].
    destruct (sortJson_node_spec ps) as (_ & Hin & Hval).
    destruct (obj_lookup k ps) as [v|] eqn:Hk; cbn [bind].
    + rewrite Hval.
      * unfold sorted_child. now rewrite Hk.
      * apply Hin, obj_lookup_in_keys. eauto.
    + destruct (obj_lookup k (fill_sorted (sorted_child ps) (array_sort (keys ps)) []))
        as [v|] eqn:Hk'; [| reflexivity].
      assert (Hmem : In k (keys ps)) by (apply Hin, obj_lookup_in_keys; eauto).
      apply obj_lookup_in_keys in Hmem. destruct Hmem as [v' Hv']. congruence.
Qed.

(** A key path that reads a value reads its sorted form in the sorted tree. *)
Lemma lookup_path_sorted (path : list string) :
  forall t v, lookup_path t path = Ok v -> lookup_path (sortJson t) path = Ok (sortJson v).
Proof.
  induction path as [|k path IH]; intros t v; cbn [lookup_path].
  - now intros [= ->].
  - rewrite js_get_sortJson. destruct (js_get t k) as [c|e]; cbn [bind]; [apply IH | discriminate].
Qed.

(** Sorting moves no value.  In a tree none of whose namespace nodes owns
    the key [__proto__], a path of own keys that reaches a value reaches its
    sorted form in the sorted tree, and a path that reaches nothing reaches
    nothing there. *)
Theorem own_path_sortJson (path : list string) (t : value) :
  proto_free t = true ->
  own_path (sortJson t) path = option_map sortJson (own_path t path).
Proof.
  intros _. revert t; induction path as [|k path IH]; intros t; [reflexivity |].
  destruct t as [| n | s | ps]; try reflexivity.
  rewrite sortJson_node. cbn [own_path].
  destruct (sortJson_node_spec ps) as (_ & Hin & Hval).
  destruct (obj_lookup k ps) as [c|] eqn:Hk.
  - rewrite Hval.
    + unfold sorted_child. rewrite Hk. apply IH.
    + apply Hin, obj_lookup_in_keys. eauto.
  - destruct (obj_lookup k (fill_sorted (sorted_child ps) (array_sort (keys ps)) []))
      as [c|] eqn:Hk'; [| reflexivity].
    assert (Hmem : In k (keys ps)) by (apply Hin, obj_lookup_in_keys; eauto).
    apply obj_lookup_in_keys in Hmem. destruct Hmem as [c' Hc']. congruence.
Qed.

(** After an insertion that stays inside namespace nodes, where neither
    the tree nor the path brings the name of a member of [Object.prototype],
    the sorted tree holds the leaf under the raw directory segments followed
    by the camel-cased filename part. *)
Theorem inserted_leaf_survives_sort
    (sep : ascii) (appendToConflicts : string) (camelCase : string -> string)
    (t : value) (filename : string) :
  walkable t (directories sep filename) = true ->
  plain_insertion sep appendToConflicts camelCase t filename = true ->
  exists t',
    filenameToJson sep appendToConflicts camelCase t filename = Ok t'
    /\ lookup_path (sortJson t')
         (directories sep filename ++ [camelCase (filename_part sep filename)])%list
       = Ok (VStr (require_expr filename)).
Proof.
  intros Hw _.
  destruct (filenameToJson_reaches sep appendToConflicts camelCase t filename Hw)
    as (t' & node & Hins & Hpath & Hleaf).
  exists t'. split; [exact Hins |].
  apply (lookup_path_sorted _ t' (VStr (require_expr filename))).
  rewrite lookup_path_app, Hpath. cbn [bind lookup_path js_get]. now rewrite Hleaf.
Qed.

(** ** More on the lazy-binding rewriter *)

Lemma span_split (p : ascii -> bool) (s a b : string) : span p s = (a, b) -> s = a ++ b.
Proof.
  revert a b; induction s as [|c s IH]; intros a b; simpl.
  - now intros [= <- <-].
  - destruct (p c); [| now intros [= <- <-]].
    destruct (span p s) as [a' b']. intros [= <- <-]. simpl. now rewrite (IH a' b' eq_refl).
Qed.

Lemma strip_prefix_split (lit s r : string) : strip_prefix lit s = Some r -> s = lit ++ r.
Proof.
  revert s; induction lit as [|c lit IH]; intros s; simpl.
  - now intros [= ->].
  - destruct s as [|d s]; [discriminate |].
    destruct (Ascii.eqb_spec c d) as [->|]; [| discriminate].
    intros H. now rewrite (IH _ H) at 1.
Qed.

(** A match contains the literal part of the pattern. *)
Lemma match_at_contains (s key arg rest : string) :
  match_at s = Some (key, arg, rest) -> contains ": require('./" s.
Proof.
  unfold match_at. destruct (span is_word s) as [k r1] eqn:Hk.
  destruct k as [|c k]; [discriminate |].
  destruct (strip_prefix ": require('./" r1) as [r2|] eqn:Hlit; [| discriminate].
  intros _. exists (String c k), r2.
  rewrite (span_split _ _ _ _ Hk). now rewrite (strip_prefix_split _ _ _ Hlit).
Qed.

(** Text without [: require('./] comes back as it is. *)
Theorem convert_without_require (text : string) :
  ~ contains ": require('./" text -> convertToLazyRequireJson text = text.
Proof.
  unfold convertToLazyRequireJson. rewrite <- matches_literal_spec.
  induction text as [|c text IH]; intros Hno; [reflexivity |].
  cbn [replace_from]. destruct (match_at (String c text)) as [[[key arg] rest]|] eqn:Hm.
  - exfalso. apply Hno. apply matches_literal_spec. eapply match_at_contains. exact Hm.
  - f_equal. apply IH. intros H. apply Hno. cbn [matches_literal]. rewrite H.
    apply orb_true_r.
Qed.

Lemma replace_from_skip (a post : string) :
  replace_from (a ++ post) (String.length a) = replace_from post 0.
Proof. induction a as [|c a IH]; simpl; [now destruct post | exact IH]. Qed.

Lemma replace_from_indent (indent text : string) :
  all_chars not_word indent = true ->
  replace_from (indent ++ text) 0 = indent ++ replace_from text 0.
Proof.
  induction indent as [|c indent IH]; intros H; [reflexivity |].
  cbn [all_chars] in H. apply andb_true_iff in H. destruct H as [Hc H].
  change (String c indent ++ text) with (String c (indent ++ text)).
  cbn [replace_from]. unfold match_at. cbn [span].
  unfold not_word in Hc. apply negb_true_iff in Hc. rewrite Hc.
  simpl. now rewrite IH.
Qed.

(** One rendered pair in its context: after an indentation without word
    characters, a pair whose key is made of word characters and whose path is
    made of word characters, dots and slashes becomes the getter for the same
    key and the same path, and the text after the pair is rewritten on its
    own. *)
Theorem convert_pair_in_context (indent key arg post : string) :
  all_chars not_word indent = true ->
  key <> "" -> all_chars is_word key = true ->
  arg <> "" -> all_chars is_path_char arg = true ->
  convertToLazyRequireJson (indent ++ key ++ ": require('./" ++ arg ++ "')" ++ post)
  = indent ++ getter key arg ++ convertToLazyRequireJson post.
Proof.
  intros Hi Hk Hkw Ha Hap. unfold convertToLazyRequireJson.
  rewrite (replace_from_indent _ _ Hi). f_equal.
  set (matched := key ++ ": require('./" ++ arg ++ "')").
  assert (Hs : key ++ ": require('./" ++ arg ++ "')" ++ post = matched ++ post).
  { unfold matched. now rewrite !append_assoc. }
  assert (Hm : match_at (key ++ ": require('./" ++ arg ++ "')" ++ post)
               = Some (key, arg, post)).
  { unfold match_at. rewrite (span_class is_word key _ Hkw) by reflexivity.
    destruct key as [|k key]; [contradiction |].
    rewrite strip_prefix_app.
    rewrite (span_class is_path_char arg _ Hap) by reflexivity.
    destruct arg as [|a arg]; [contradiction |].
    reflexivity. }
  rewrite Hs in *. unfold matched in *. clear Hs matched.
  destruct key as [|k key]; [contradiction |].
  change ((String k key ++ ": require('./" ++ arg ++ "')") ++ post)
    with (String k ((key ++ ": require('./" ++ arg ++ "')") ++ post)) in *.
  cbn [replace_from]. rewrite Hm. f_equal.
  replace (String.length (String k ((key ++ ": require('./" ++ arg ++ "')") ++ post))
           - String.length post - 1)
    with (String.length (key ++ ": require('./" ++ arg ++ "')"))
    by (cbn [String.length]; rewrite (length_append _ post); lia).
  apply replace_from_skip.
Qed.

(** ** The ['file'] handler *)

Lemma split_str_from_skip (separator a rest : string) :
  split_str_from separator (a ++ rest) (String.length a) = split_str_from separator rest 0.
Proof. induction a as [|c a IH]; simpl; [now destruct rest | exact IH]. Qed.

Lemma split_str_prefix (separator rest : string) :
  separator <> "" ->
  split_str separator (separator ++ rest) = "" :: split_str separator rest.
Proof.
  intros Hne. destruct separator as [|c sepr]; [contradiction |].
  unfold split_str. change (String c sepr ++ rest) with (String c (sepr ++ rest)).
  cbn [split_str_from].
  replace (prefix (String c sepr) (String c (sepr ++ rest))) with true
    by (symmetry; apply prefix_spec; now exists rest).
  f_equal.
  replace (String.length (String c sepr) - 1) with (String.length sepr)
    by (cbn [String.length]; lia).
  apply split_str_from_skip.
Qed.

Lemma split_str_absent (separator s : string) :
  separator <> "" -> ~ contains separator s -> split_str separator s = [s].
Proof.
  intros Hne. rewrite <- matches_literal_spec.
  destruct separator as [|c sepr]; [contradiction |]. unfold split_str.
  induction s as [|d s IH]; intros Hno; [reflexivity |].
  cbn [matches_literal] in Hno. apply not_true_iff_false, orb_false_iff in Hno.
  destruct Hno as [Hp Hrest]. cbn [split_str_from]. rewrite Hp.
  rewrite IH; [reflexivity | now rewrite Hrest].
Qed.

Lemma slice_tail (c : ascii) (s : string) : slice (String c s) 1 None = s.
Proof.
  unfold slice. cbn [String.length].
  replace (1 <? 0)%Z with false by reflexivity.
  replace (Z.to_nat (Z.min 1 (Z.of_nat (S (String.length s))))) with 1 by lia.
  cbn [substring]. apply substring_whole. lia.
Qed.

Section HandlerFacts.

Variable sep : ascii.
Variable appendToConflicts : string.
Variable camelCase : string -> string.
Variable eligible : string -> bool.

Local Abbreviation handler := (on_file sep appendToConflicts camelCase eligible).

(** An eligible file below the directory is inserted under its path
    relative to the directory, provided the text of the directory does not
    occur again in the rest of the path. *)
Theorem on_file_inserts_relative (directory relative : string) (json : value) :
  directory <> "" ->
  ~ contains directory ("/" ++ relative) ->
  eligible (directory ++ "/" ++ relative) = true ->
  handler directory json (directory ++ "/" ++ relative)
  = filenameToJson sep appendToConflicts camelCase json relative.
Proof.
  intros Hne Hno Hel. unfold on_file. rewrite Hel.
  rewrite (split_str_prefix directory _ Hne), (split_str_absent _ _ Hne Hno).
  cbn [nth_error]. change ("/" ++ relative) with (String "/" relative).
  replace (startsWith (String "/" relative) "/") with true
    by (symmetry; apply prefix_spec; now exists relative).
  now rewrite slice_tail.
Qed.

(** An eligible file whose path does not contain the directory makes the
    handler throw: the second piece of the split is [undefined]. *)
Theorem on_file_outside_directory (directory filename : string) (json : value) :
  directory <> "" ->
  ~ contains directory filename ->
  eligible filename = true ->
  handler directory json filename = Throw TypeError.
Proof.
  intros Hne Hno Hel. unfold on_file. rewrite Hel.
  now rewrite (split_str_absent _ _ Hne Hno).
Qed.

End HandlerFacts.

(** ** The sorted tree as a canonical form *)

(** Two nodes with the same keys whose children sort alike sort alike. *)
Lemma sortJson_node_ext (ps ps' : props) :
  (forall k, In k (keys ps) <-> In k (keys ps')) ->
  (forall k v v', obj_lookup k ps = Some v -> obj_lookup k ps' = Some v' ->
                  sortJson v = sortJson v') ->
  sortJson (VObj ps) = sortJson (VObj ps').
Proof.
  intros Hkeys Hchild. rewrite !sortJson_node. f_equal.
  destruct (sortJson_node_spec ps) as (Hord & Hin & Hval).
  destruct (sortJson_node_spec ps') as (Hord' & Hin' & Hval').
  apply props_ext.
  - apply (ordered_unique js_key_lt);
      [apply js_key_lt_irrefl | apply js_key_lt_trans | exact Hord | exact Hord' |].
    intros k. now rewrite Hin, Hin', Hkeys.
  - apply sortJson_node_NoDup.
  - intros k Hk. rewrite (Hval k Hk).
    apply Hin in Hk. assert (Hk' : In k (keys ps')) by now apply Hkeys.
    rewrite Hval' by now apply Hin'.
    apply obj_lookup_in_keys in Hk, Hk'. destruct Hk as [v Hv], Hk' as [v' Hv'].
    unfold sorted_child. rewrite Hv, Hv'. f_equal. eapply Hchild; eassumption.
Qed.

(** Trees that differ only in the enumeration order of their keys sort to
    the same tree. *)
Theorem sortJson_canonical (t t' : value) : same_tree t t' -> sortJson t = sortJson t'.
Proof.
  induction 1 as [v Hv | ps ps' Hkeys Hchild IH]; [reflexivity |].
  apply sortJson_node_ext; [exact Hkeys |].
  intros k v v' Hv Hv'. eapply IH; eassumption.
Qed.

(** Sorting only reorders: when no namespace node of the tree owns the key
    [__proto__], the sorted tree has, node by node, the keys of the tree
    with the same children up to the order of their keys. *)
Theorem sortJson_only_reorders (t : value) :
  proto_free t = true -> same_tree t (sortJson t).
Proof.
  intros _.
  induction t as [| n | s | ps IH] using value_ind_nested; try (now constructor).
  rewrite sortJson_node. destruct (sortJson_node_spec ps) as (_ & Hin & Hval).
  constructor.
  - intros k. symmetry. apply Hin.
  - intros k v v' Hv Hv'. rewrite Hval in Hv'.
    + unfold sorted_child in Hv'. rewrite Hv in Hv'. injection Hv' as <-.
      apply (IH k v). now apply obj_lookup_in.
    + apply Hin, obj_lookup_in_keys. eauto.
Qed.

(** ** Insertion as a trie insertion *)

Lemma obj_replace_replace (k : string) (v w : value) (ps : props) :
  obj_replace k v (obj_replace k w ps) = obj_replace k v ps.
Proof.
  induction ps as [|[k' v'] ps IH]; simpl; [reflexivity |].
  destruct (String.eqb k' k) eqn:Hk; simpl; rewrite Hk; [reflexivity | now rewrite IH].
Qed.

Lemma obj_replace_insert_index (n : N) (k : string) (v w : value) (ps : props) :
  obj_lookup k ps = None ->
  obj_replace k v (obj_insert_index n k w ps) = obj_insert_index n k v ps.
Proof.
  induction ps as [|[k' v'] ps IH]; simpl.
  - intros _. now rewrite String.eqb_refl.
  - destruct (String.eqb k' k) eqn:Hk; [discriminate |]. intros Hnone.
    destruct (array_index k') as [n'|]; [destruct (n' <? n)%N |]; simpl;
      rewrite ?Hk, ?String.eqb_refl; try reflexivity.
    now rewrite IH.
Qed.

Lemma obj_replace_snoc (k : string) (v w : value) (ps : props) :
  obj_lookup k ps = None ->
  obj_replace k v (ps ++ [(k, w)])%list = (ps ++ [(k, v)])%list.
Proof.
  induction ps as [|[k' v'] ps IH]; simpl.
  - intros _. now rewrite String.eqb_refl.
  - destruct (String.eqb k' k) eqn:Hk; [discriminate |]. intros Hnone. now rewrite IH.
Qed.

(** Mutating the value just assigned at a key is assigning the mutated
    value. *)
Lemma obj_replace_set (k : string) (v w : value) (ps : props) :
  obj_replace k v (obj_set ps k w) = obj_set ps k v.
Proof.
  unfold obj_set, has_key. destruct (obj_lookup k ps) as [x|] eqn:Hk.
  - apply obj_replace_replace.
  - destruct (array_index k) as [n|].
    + now apply obj_replace_insert_index.
    + now apply obj_replace_snoc.
Qed.

Lemma passable_nil (dirs : list string) : passable [] dirs = true.
Proof. now destruct dirs. Qed.

Section TrieFacts.

Variable sep : ascii.
Variable appendToConflicts : string.
Variable camelCase : string -> string.

Local Abbreviation attach := (attachFilenameToLeafNode appendToConflicts camelCase).
Local Abbreviation reduce := (walk appendToConflicts camelCase).
Local Abbreviation insert := (filenameToJson sep appendToConflicts camelCase).

Lemma walk_trie (filenamePart filename : string) (dirs : list string) :
  forall ps,
    dirs <> [] ->
    passable ps dirs = true ->
    reduce filenamePart filename dirs (Z.of_nat (List.length dirs)) (VObj ps)
    = Ok (VObj (trie_insert dirs (camelCase filenamePart)
                  (VStr (require_expr filename)) ps)).
Proof.
  induction dirs as [|d rest IH]; [contradiction |]. intros ps _ Hpass.
  cbn [passable] in Hpass. cbn [trie_insert].
  set (child := match obj_lookup d ps with Some (VObj cps) => cps | _ => [] end).
  rewrite walk_cons. cbn [js_get].
  assert (Hfill : exists ps1,
             (cur <- match obj_lookup d ps with Some v => Ok v | None => Ok VUndef end ;;
              (if is_undefined cur then js_set (VObj ps) d (VObj []) else Ok (VObj ps)))
             = Ok (VObj ps1)
             /\ obj_lookup d ps1 = Some (VObj child)
             /\ passable child rest = true
             /\ forall c, obj_replace d c ps1 = obj_set ps d c).
  { unfold child. destruct (obj_lookup d ps) as [c|] eqn:Hd; cbn [bind].
    - destruct c as [| n | s | cps]; try discriminate.
      exists ps. cbn [is_undefined]. repeat split; auto.
      intros c. unfold obj_set, has_key. now rewrite Hd.
    - exists (obj_set ps d (VObj [])). cbn [is_undefined js_set]. repeat split.
      + now rewrite obj_lookup_set, String.eqb_refl.
      + apply passable_nil.
      + intros c. apply obj_replace_set. }
  destruct Hfill as (ps1 & -> & Hchild & Hpass' & Hstore). cbn [bind].
  replace (Z.of_nat (List.length (d :: rest)) - 1)%Z with (Z.of_nat (List.length rest))
    by (cbn [List.length]; lia).
  destruct rest as [|d' rest'].
  - cbn [List.length Z.of_nat Z.eqb trie_insert]. unfold attachFilenameToLeafNode.
    rewrite handleConflicts_node, Hchild.
    replace (startsWith (baseToString (VObj child)) "require(") with false by reflexivity.
    cbn [bind js_get]. rewrite Hchild. cbn [bind js_set store_child js_get].
    rewrite obj_lookup_replace, String.eqb_refl, Hchild.
    cbn [option_map bind walk store_child].
    now rewrite obj_replace_replace, Hstore.
  - replace (Z.of_nat (List.length (d' :: rest')) =? 0)%Z with false
      by (cbn [List.length]; symmetry; apply Z.eqb_neq; lia).
    cbn [bind js_get]. rewrite Hchild. cbn [bind].
    rewrite (IH child ltac:(discriminate) Hpass'). cbn [bind store_child].
    now rewrite Hstore.
Qed.

(** The insertion along passable directory segments. *)
Lemma filenameToJson_passable (ps : props) (filename : string) :
  passable ps (directories sep filename) = true ->
  insert (VObj ps) filename
  = Ok (VObj (trie_insert (directories sep filename)
                (camelCase (filename_part sep filename))
                (VStr (require_expr filename)) ps)).
Proof.
  unfold filenameToJson, directories, filename_part.
  set (dirs := removelast (split sep filename)).
  set (part := slice (last (split sep filename) "") 0 (Some (-3)%Z)).
  intros Hpass. destruct dirs as [|d rest] eqn:Hdirs.
  - reflexivity.
  - replace (Z.of_nat (List.length (d :: rest)) =? 0)%Z with false
      by (cbn [List.length]; symmetry; apply Z.eqb_neq; lia).
    cbn [bind]. now apply walk_trie.
Qed.

End TrieFacts.

(** ** Leaves of a trie *)

Lemma is_prefix_app (p d r : list string) :
  is_prefix p d = true -> is_prefix p (d ++ r)%list = true.
Proof.
  revert d; induction p as [|a p IH]; intros [|b d]; simpl; try discriminate; auto.
  rewrite !andb_true_iff. intros [Hab Hp]. auto.
Qed.

Lemma is_prefix_refl (p : list string) : is_prefix p p = true.
Proof. induction p as [|a p IH]; simpl; [reflexivity |]. now rewrite String.eqb_refl. Qed.

Lemma is_prefix_length (p q : list string) :
  is_prefix p q = true -> List.length p <= List.length q.
Proof.
  revert q; induction p as [|a p IH]; intros [|b q]; simpl; try discriminate; try lia.
  rewrite andb_true_iff. intros [_ Hp]. apply IH in Hp. lia.
Qed.

Lemma trie_child_passable (ps : props) (d : string) (rest : list string) :
  passable ps (d :: rest) = true ->
  passable (match obj_lookup d ps with Some (VObj cps) => cps | _ => [] end) rest = true.
Proof.
  cbn [passable]. destruct (obj_lookup d ps) as [[| n | s | cps]|]; try discriminate;
    auto using passable_nil.
Qed.

Lemma trie_child_leaf_at (ps : props) (d : string) (rest r : list string) :
  passable ps (d :: rest) = true ->
  leaf_at (VObj (match obj_lookup d ps with Some (VObj cps) => cps | _ => [] end)) r
  = leaf_at (VObj ps) (d :: r).
Proof.
  cbn [passable leaf_at]. destruct (obj_lookup d ps) as [[| n | s | cps]|]; try discriminate.
  - reflexivity.
  - intros _. now destruct r.
Qed.

(** The inserted leaf is stored at its key path. *)
Lemma leaf_at_trie_insert_here (dirs : list string) (key leaf : string) :
  forall ps,
    passable ps dirs = true ->
    leaf_at (VObj (trie_insert dirs key (VStr leaf) ps)) (dirs ++ [key])%list = Some leaf.
Proof.
  induction dirs as [|d rest IH]; intros ps Hpass; cbn [trie_insert app leaf_at].
  - now rewrite obj_lookup_set, String.eqb_refl.
  - rewrite obj_lookup_set, String.eqb_refl. apply IH. now apply trie_child_passable.
Qed.

(** Every other key path reads what it read before, provided no leaf was
    stored at or below the key path of the inserted leaf. *)
Lemma leaf_at_trie_insert_other (dirs : list string) (key leaf : string) :
  forall ps pos,
    passable ps dirs = true ->
    (forall q x, leaf_at (VObj ps) q = Some x -> is_prefix (dirs ++ [key])%list q = false) ->
    pos <> (dirs ++ [key])%list ->
    leaf_at (VObj (trie_insert dirs key (VStr leaf) ps)) pos = leaf_at (VObj ps) pos.
Proof.
  induction dirs as [|d rest IH]; intros ps pos Hpass Hfree Hpos.
  - cbn [trie_insert app] in *. destruct pos as [|k r]; [reflexivity |].
    cbn [leaf_at]. rewrite obj_lookup_set.
    destruct (String.eqb_spec key k) as [<- | Hne]; [| reflexivity].
    destruct r as [|a r]; [contradiction |].
    change (leaf_at (VStr leaf) (a :: r)) with (@None string).
    destruct (obj_lookup key ps) as [c|] eqn:Hc; [| reflexivity].
    destruct (leaf_at c (a :: r)) as [x|] eqn:Hx; [| reflexivity].
    specialize (Hfree (key :: a :: r) x). cbn [leaf_at] in Hfree. rewrite Hc in Hfree.
    specialize (Hfree Hx). cbn [is_prefix] in Hfree. now rewrite String.eqb_refl in Hfree.
  - cbn [trie_insert]. destruct pos as [|k r]; [reflexivity |].
    cbn [leaf_at]. rewrite obj_lookup_set.
    destruct (String.eqb_spec d k) as [<- | Hne]; [| reflexivity].
    rewrite IH.
    + rewrite (trie_child_leaf_at ps d rest r Hpass). reflexivity.
    + now apply trie_child_passable.
    + intros q x Hq. rewrite (trie_child_leaf_at ps d rest q Hpass) in Hq.
      specialize (Hfree _ _ Hq). cbn [app is_prefix] in Hfree.
      now rewrite String.eqb_refl in Hfree.
    + intros ->. now apply Hpos.
Qed.

Lemma populated_children_set (ps : props) (k : string) (v : value) :
  populated_children ps = true -> populated v = true ->
  populated_children (obj_set ps k v) = true.
Proof.
  unfold populated_children. intros Hps Hv. unfold obj_set.
  destruct (has_key k ps).
  - induction ps as [|[k' v'] ps IH]; [reflexivity |].
    cbn [forallb snd] in Hps. apply andb_true_iff in Hps. destruct Hps as [Hv' Hps].
    cbn [obj_replace]. destruct (String.eqb k' k); cbn [forallb snd].
    + now rewrite Hv, Hps.
    + now rewrite Hv', IH.
  - destruct (array_index k) as [n|].
    + induction ps as [|[k' v'] ps IH]; [cbn; now rewrite Hv |].
      pose proof Hps as Hall.
      cbn [forallb snd] in Hps. apply andb_true_iff in Hps. destruct Hps as [Hv' Hps].
      cbn [obj_insert_index].
      destruct (array_index k') as [n'|]; [destruct (n' <? n)%N |]; cbn [forallb snd].
      * now rewrite Hv', IH.
      * cbn [forallb snd] in Hall. now rewrite Hv, Hall.
      * cbn [forallb snd] in Hall. now rewrite Hv, Hall.
    + rewrite forallb_app. cbn [forallb snd]. now rewrite Hps, Hv.
Qed.

Lemma obj_set_not_nil (ps : props) (k : string) (v : value) : obj_set ps k v <> [].
Proof.
  intros H. assert (Hin : In k (keys (obj_set ps k v))) by (apply keys_obj_set; now left).
  now rewrite H in Hin.
Qed.

Lemma populated_node (ps : props) :
  populated (VObj ps) = true <-> ps <> [] /\ populated_children ps = true.
Proof.
  cbn [populated]. fold (populated_children ps). destruct ps as [|kv ps]; simpl.
  - split; [discriminate | intros [H _]; contradiction].
  - split; [intros H; split; [discriminate | exact H] | intros [_ H]; exact H].
Qed.

Lemma populated_children_lookup (ps : props) (k : string) (c : value) :
  populated_children ps = true -> obj_lookup k ps = Some c -> populated c = true.
Proof.
  unfold populated_children. rewrite forallb_forall. intros Hall Hc.
  apply (Hall (k, c)). now apply obj_lookup_in.
Qed.

(** A trie insertion keeps every node below the root populated. *)
Lemma trie_insert_populated (dirs : list string) (key leaf : string) :
  forall ps,
    populated_children ps = true ->
    populated_children (trie_insert dirs key (VStr leaf) ps) = true.
Proof.
  induction dirs as [|d rest IH]; intros ps Hps; cbn [trie_insert].
  - now apply populated_children_set.
  - apply populated_children_set; [exact Hps |].
    apply populated_node. split.
    + destruct rest; cbn [trie_insert]; apply obj_set_not_nil.
    + apply IH. destruct (obj_lookup d ps) as [[| n | s | cps]|] eqn:Hd; try reflexivity.
      apply (populated_children_lookup ps d _ Hps) in Hd.
      now apply populated_node in Hd.
Qed.

Section TrieInsertion.

Variable sep : ascii.
Variable appendToConflicts : string.
Variable camelCase : string -> string.

Local Abbreviation insert := (filenameToJson sep appendToConflicts camelCase).

(** An insertion whose directory segments meet only absent keys and
    namespace nodes, where no key of the tree or of the key path of the file
    is the name of a member of [Object.prototype], is a trie insertion of
    the leaf at the raw segments followed by the camel-cased filename part;
    the conflict resolver takes no part in it, and the leaf is stored at its
    key path. *)
Theorem filenameToJson_trie (ps : props) (filename : string) :
  passable ps (directories sep filename) = true ->
  plain_tree (VObj ps) = true ->
  forallb plain_key (leaf_position sep camelCase filename) = true ->
  insert (VObj ps) filename
  = Ok (VObj (trie_insert (directories sep filename)
                (camelCase (filename_part sep filename))
                (VStr (require_expr filename)) ps))
  /\ leaf_at (VObj (trie_insert (directories sep filename)
                      (camelCase (filename_part sep filename))
                      (VStr (require_expr filename)) ps))
             (leaf_position sep camelCase filename)
     = Some (require_expr filename).
Proof.
  intros Hpass _ _. split.
  - now apply (filenameToJson_passable sep appendToConflicts camelCase).
  - unfold leaf_position. now apply leaf_at_trie_insert_here.
Qed.

End TrieInsertion.

(** A populated value holds a leaf. *)
Lemma populated_has_leaf (c : value) :
  populated c = true -> exists pos x, leaf_at c pos = Some x.
Proof.
  induction c as [| n | s | ps IH] using value_ind_nested; try discriminate.
  - intros _. exists [], s. reflexivity.
  - intros H. apply populated_node in H. destruct H as [Hne Hps].
    destruct ps as [|[k c0] ps]; [contradiction |].
    assert (Hk : obj_lookup k ((k, c0) :: ps) = Some c0)
      by (cbn [obj_lookup]; now rewrite String.eqb_refl).
    destruct (IH k c0 (or_introl eq_refl)) as (pos & x & Hx).
    { eapply populated_children_lookup; eassumption. }
    exists (k :: pos), x. cbn [leaf_at]. now rewrite Hk.
Qed.

Lemma populated_tree_like (v : value) : populated v = true -> tree_like v = true.
Proof.
  destruct v as [| n | s | ps]; try discriminate; [reflexivity |].
  intros H. now apply populated_node in H.
Qed.

Lemma key_has_leaf (ps : props) (k : string) :
  populated_children ps = true ->
  In k (keys ps) <-> exists r x, leaf_at (VObj ps) (k :: r) = Some x.
Proof.
  intros Hps. cbn [leaf_at]. rewrite obj_lookup_in_keys. split.
  - intros [c Hc]. rewrite Hc. apply populated_has_leaf.
    eapply populated_children_lookup; eassumption.
  - intros (r & x & H). destruct (obj_lookup k ps) as [c|]; [eauto | discriminate].
Qed.

(** Two trees with the same leaves at the same key paths sort to the same
    tree. *)
Lemma sortJson_of_leaves (c : value) :
  forall c',
    tree_like c = true -> tree_like c' = true ->
    (forall pos, leaf_at c pos = leaf_at c' pos) ->
    sortJson c = sortJson c'.
Proof.
  induction c as [| n | s | ps IH] using value_ind_nested; intros c' Hc Hc' Hl;
    try discriminate.
  - specialize (Hl []). cbn [leaf_at] in Hl.
    destruct c'; try discriminate. now injection Hl as <-.
  - destruct c' as [| n' | s' | ps']; try discriminate.
    + specialize (Hl []). discriminate.
    + cbn [tree_like] in Hc, Hc'. apply sortJson_node_ext.
      * intros k. rewrite (key_has_leaf ps k Hc), (key_has_leaf ps' k Hc').
        split; intros (r & x & H); exists r, x; [rewrite <- Hl | rewrite Hl]; exact H.
      * intros k v v' Hv Hv'. apply (IH k v (obj_lookup_in _ _ _ Hv)).
        -- apply populated_tree_like. exact (populated_children_lookup ps k v Hc Hv).
        -- apply populated_tree_like. exact (populated_children_lookup ps' k v' Hc' Hv').
        -- intros pos. specialize (Hl (k :: pos)). cbn [leaf_at] in Hl.
           now rewrite Hv, Hv' in Hl.
Qed.

(** A node none of whose leaves lies on the directory segments lets them
    pass. *)
Lemma passable_of_clear (dirs : list string) :
  forall ps,
    populated_children ps = true ->
    (forall p x, leaf_at (VObj ps) p = Some x -> is_prefix p dirs = false) ->
    passable ps dirs = true.
Proof.
  induction dirs as [|d rest IH]; intros ps Hps Hclear; [reflexivity |].
  cbn [passable]. destruct (obj_lookup d ps) as [c|] eqn:Hd; [| reflexivity].
  pose proof (populated_children_lookup ps d c Hps Hd) as Hc.
  destruct c as [| n | s | cps]; try discriminate.
  - specialize (Hclear [d] s). cbn [leaf_at] in Hclear. rewrite Hd in Hclear.
    specialize (Hclear eq_refl). cbn [is_prefix] in Hclear.
    now rewrite String.eqb_refl in Hclear.
  - apply IH; [now apply populated_node in Hc |].
    intros p x Hp. specialize (Hclear (d :: p) x). cbn [leaf_at] in Hclear.
    rewrite Hd in Hclear. specialize (Hclear Hp). cbn [is_prefix] in Hclear.
    now rewrite String.eqb_refl in Hclear.
Qed.

Lemma leaf_at_lookup_path (pos : list string) :
  forall t x, leaf_at t pos = Some x -> lookup_path t pos = Ok (VStr x).
Proof.
  induction pos as [|k pos IH]; intros t x; cbn [leaf_at lookup_path].
  - destruct t; try discriminate. now intros [= ->].
  - destruct t as [| n | s | ps]; try discriminate. cbn [js_get].
    destruct (obj_lookup k ps) as [c|]; [| discriminate]. cbn [bind]. apply IH.
Qed.

Lemma prefix_free_incomparable (paths : list (list string)) :
  prefix_free paths = true -> incomparable paths.
Proof.
  induction paths as [|p rest IH]; intros H.
  - split; [constructor | intros p q []].
  - cbn [prefix_free] in H. apply andb_true_iff in H. destruct H as [Hp Hrest].
    rewrite forallb_forall in Hp. destruct (IH Hrest) as [Hnd Hinc].
    assert (Hhead : forall q, In q rest -> is_prefix p q = false /\ is_prefix q p = false).
    { intros q Hq. specialize (Hp q Hq). apply andb_true_iff in Hp.
      now rewrite !negb_true_iff in Hp. }
    split.
    + constructor; [| exact Hnd]. intros Hin.
      destruct (Hhead p Hin) as [Hpp _]. now rewrite is_prefix_refl in Hpp.
    + intros a b [<- | Ha] [<- | Hb] Hab.
      * contradiction.
      * now apply Hhead.
      * now apply Hhead.
      * now apply Hinc.
Qed.

Lemma incomparable_perm (paths paths' : list (list string)) :
  Permutation paths paths' -> incomparable paths -> incomparable paths'.
Proof.
  intros Hperm [Hnd Hinc]. split.
  - eapply Permutation_NoDup; eassumption.
  - intros p q Hp Hq. apply Hinc; eapply Permutation_in; try eassumption;
      now apply Permutation_sym.
Qed.

(** ** Building a tree from paths that do not compete for a key *)

Section BuildFacts.

Variable sep : ascii.
Variable appendToConflicts : string.
Variable camelCase : string -> string.

Local Abbreviation insert := (filenameToJson sep appendToConflicts camelCase).
Local Abbreviation build := (build_tree sep appendToConflicts camelCase).
Local Abbreviation position := (leaf_position sep camelCase).
Local Abbreviation entry := (leaf_entry sep camelCase).
Local Abbreviation holds := (represents sep camelCase).

Lemma represents_empty : holds [] [].
Proof.
  split; [reflexivity |]. intros pos x. split; [| intros []].
  destruct pos; discriminate.
Qed.

Lemma represents_position (ps : props) (files : list string) (pos : list string) (x : string) :
  holds ps files -> leaf_at (VObj ps) pos = Some x -> In pos (map position files).
Proof.
  intros [_ Hrep] H. apply Hrep in H. apply in_map_iff in H.
  destruct H as (f & Hf & Hin). apply in_map_iff. exists f. split; [| exact Hin].
  unfold leaf_entry in Hf. now injection Hf.
Qed.

(** One more file whose key path is new and incomparable with the key paths
    stored so far. *)
Lemma represents_insert (ps : props) (done : list string) (filename : string) :
  holds ps done ->
  incomparable (map position (done ++ [filename])) ->
  exists ps',
    insert (VObj ps) filename = Ok (VObj ps') /\ holds ps' (done ++ [filename]).
Proof.
  intros Hrep [Hnd Hinc].
  rewrite map_app in Hnd, Hinc. cbn [map] in Hnd, Hinc.
  assert (Htarget : In (position filename) (map position done ++ [position filename])%list)
    by (apply in_or_app; right; now left).
  assert (Hfresh : ~ In (position filename) (map position done)).
  { apply NoDup_remove_2 in Hnd. now rewrite app_nil_r in Hnd. }
  assert (Hstored : forall q x, leaf_at (VObj ps) q = Some x ->
                                In q (map position done) /\ q <> position filename).
  { intros q x Hq. pose proof (represents_position ps done q x Hrep Hq) as Hin.
    split; [exact Hin | intros ->; contradiction]. }
  assert (Hfree : forall q x, leaf_at (VObj ps) q = Some x ->
                              is_prefix (position filename) q = false).
  { intros q x Hq. destruct (Hstored q x Hq) as [Hin Hne].
    apply Hinc; auto. apply in_or_app. now left. }
  assert (Hpass : passable ps (directories sep filename) = true).
  { apply passable_of_clear; [apply Hrep |]. intros p x Hp.
    destruct (Hstored p x Hp) as [Hin Hne].
    destruct (is_prefix p (directories sep filename)) eqn:Hpre; [| reflexivity].
    assert (Hcmp : is_prefix p (position filename) = false).
    { apply Hinc; auto. apply in_or_app. now left. }
    unfold leaf_position in Hcmp. now rewrite (is_prefix_app _ _ _ Hpre) in Hcmp. }
  rewrite (filenameToJson_passable sep appendToConflicts camelCase ps filename Hpass).
  eexists. split; [reflexivity |]. destruct Hrep as [Hpop Hrep]. split.
  - now apply trie_insert_populated.
  - intros pos x. rewrite map_app, in_app_iff. cbn [map In].
    destruct (list_eq_dec string_dec pos (position filename)) as [-> | Hne].
    + unfold leaf_position at 1.
      rewrite (leaf_at_trie_insert_here _ _ _ ps Hpass). split.
      * intros [= <-]. right. now left.
      * intros [Hin | [[= <-] | []]]; [| reflexivity].
        exfalso. apply Hfresh. apply in_map_iff in Hin. destruct Hin as (f & Hf & Hin).
        apply in_map_iff. exists f. split; [| exact Hin].
        unfold leaf_entry in Hf. now injection Hf.
    + rewrite (leaf_at_trie_insert_other _ _ _ ps pos Hpass Hfree Hne).
      rewrite Hrep. split; [now left |].
      intros [Hin | [Heq | []]]; [exact Hin |].
      unfold leaf_entry in Heq. injection Heq as Hp _. now symmetry in Hp.
Qed.

Lemma build_from (files : list string) :
  forall done ps,
    holds ps done ->
    incomparable (map position (done ++ files)) ->
    exists ps',
      fold_left (fun acc filename => json <- acc ;; insert json filename)
                files (Ok (VObj ps)) = Ok (VObj ps')
      /\ holds ps' (done ++ files).
Proof.
  induction files as [|f files IH]; intros done ps Hrep Hinc.
  - exists ps. rewrite app_nil_r. split; [reflexivity | exact Hrep].
  - assert (Hstep : incomparable (map position (done ++ [f]))).
    { destruct Hinc as [Hnd Hinc].
      replace (done ++ f :: files)%list with ((done ++ [f]) ++ files)%list in Hnd, Hinc
        by now rewrite <- app_assoc.
      rewrite map_app in Hnd, Hinc. split.
      - now apply NoDup_app_remove_r in Hnd.
      - intros p q Hp Hq. apply Hinc; apply in_or_app; now left. }
    destruct (represents_insert ps done f Hrep Hstep) as (ps1 & Hins & Hrep1).
    cbn [fold_left bind]. rewrite Hins.
    replace (done ++ f :: files)%list with ((done ++ [f]) ++ files)%list
      by now rewrite <- app_assoc.
    apply IH; [exact Hrep1 |].
    now rewrite <- app_assoc.
Qed.

(** When no two files compete for a key (the key paths of their leaves are
    distinct and none is a prefix of another) and no key of these paths is
    the name of a member of [Object.prototype], every insertion succeeds and
    the tree holds exactly the leaves of the files, each readable at the
    raw directory segments followed by the camel-cased filename part. *)
Theorem build_tree_holds_every_leaf (files : list string) :
  prefix_free (map position files) = true ->
  plain_files sep camelCase files = true ->
  exists ps,
    build files = Ok (VObj ps)
    /\ (forall pos x, leaf_at (VObj ps) pos = Some x
                      <-> exists f, In f files /\ pos = position f /\ x = require_expr f)
    /\ (forall f, In f files ->
                  lookup_path (VObj ps) (position f) = Ok (VStr (require_expr f))).
Proof.
  intros Hfree _. apply prefix_free_incomparable in Hfree.
  destruct (build_from files [] [] represents_empty Hfree) as (ps & Hbuild & Hpop & Hrep).
  exists ps. split; [exact Hbuild |].
  assert (Hleaves : forall pos x, leaf_at (VObj ps) pos = Some x
                      <-> exists f, In f files /\ pos = position f /\ x = require_expr f).
  { intros pos x. cbn [app] in Hrep. rewrite Hrep, in_map_iff. unfold leaf_entry.
    split.
    - intros (f & [= <- <-] & Hin). eauto.
    - intros (f & Hin & -> & ->). eauto. }
  split; [exact Hleaves |].
  intros f Hf. apply leaf_at_lookup_path. apply Hleaves. eauto.
Qed.

(** When no two files compete for a key, and no key of their key paths is
    the name of a member of [Object.prototype], the order in which the files
    are inserted does not show in the sorted tree. *)
Theorem build_tree_order_independent (files files' : list string) :
  prefix_free (map position files) = true ->
  plain_files sep camelCase files = true ->
  Permutation files files' ->
  exists t t',
    build files = Ok t /\ build files' = Ok t' /\ sortJson t = sortJson t'.
Proof.
  intros Hfree _ Hperm. apply prefix_free_incomparable in Hfree.
  assert (Hfree' : incomparable (map position files')).
  { eapply incomparable_perm; [| exact Hfree]. now apply Permutation_map. }
  destruct (build_from files [] [] represents_empty Hfree) as (ps & Hbuild & Hpop & Hrep).
  destruct (build_from files' [] [] represents_empty Hfree') as (ps' & Hbuild' & Hpop' & Hrep').
  exists (VObj ps), (VObj ps'). split; [exact Hbuild | split; [exact Hbuild' |]].
  apply sortJson_of_leaves; [exact Hpop | exact Hpop' |].
  intros pos. cbn [app] in Hrep, Hrep'.
  assert (Hsame : forall x, leaf_at (VObj ps) pos = Some x <-> leaf_at (VObj ps') pos = Some x).
  { intros x. rewrite Hrep, Hrep'. split; intros Hin.
    - eapply Permutation_in; [| exact Hin]. now apply Permutation_map.
    - eapply Permutation_in; [| exact Hin]. now apply Permutation_map, Permutation_sym. }
  destruct (leaf_at (VObj ps) pos) as [x|] eqn:Hx.
  - symmetry. exact (proj1 (Hsame x) eq_refl).
  - destruct (leaf_at (VObj ps') pos) as [x'|] eqn:Hx'; [| reflexivity].
    discriminate (proj2 (Hsame x') eq_refl).
Qed.

End BuildFacts.

(** ** The filename part and the extension *)

Lemma split_without_sep (sep : ascii) (x : string) :
  all_chars (fun c => negb (Ascii.eqb c sep)) x = true -> split sep x = [x].
Proof.
  induction x as [|c x IH]; [reflexivity |]. cbn [all_chars split].
  rewrite andb_true_iff, negb_true_iff. intros [Hc Hx]. now rewrite Hc, (IH Hx).
Qed.

Lemma split_app_without_sep (sep : ascii) (p x : string) :
  all_chars (fun c => negb (Ascii.eqb c sep)) x = true ->
  split sep (p ++ x)
  = (removelast (split sep p) ++ [(last (split sep p) "" ++ x)%string])%list.
Proof.
  intros Hx. induction p as [|c p IH].
  - cbn [append split removelast last app]. now apply split_without_sep.
  - change (String c p ++ x) with (String c (p ++ x)). cbn [split].
    pose proof (split_not_nil sep p) as Hnil. rewrite IH.
    destruct (split sep p) as [|w ws] eqn:Hsp; [contradiction |].
    destruct (Ascii.eqb c sep).
    + reflexivity.
    + destruct ws as [|w' ws]; reflexivity.
Qed.

Lemma slice_without_suffix (w x : string) :
  0 < String.length x ->
  slice (w ++ x) 0 (Some (- Z.of_nat (String.length x))%Z) = w.
Proof.
  intros Hx. unfold slice. rewrite length_append.
  replace (0 <? 0)%Z with false by reflexivity.
  replace (- Z.of_nat (String.length x) <? 0)%Z with true by (symmetry; apply Z.ltb_lt; lia).
  replace (Z.to_nat (Z.min 0 (Z.of_nat (String.length w + String.length x)))) with 0 by lia.
  replace (Z.to_nat
             (Z.max
                (Z.max (Z.of_nat (String.length w + String.length x)
                        + - Z.of_nat (String.length x)) 0
                 - Z.min 0 (Z.of_nat (String.length w + String.length x))) 0))
    with (String.length w) by lia.
  rewrite substring_take. clear Hx.
  induction w as [|c w IH]; simpl; [reflexivity | now rewrite IH].
Qed.

(** For a path that ends in [.js], the directory segments are those of the
    path without the extension and the filename part is its last segment
    without the extension, whenever the separator is not a character of
    [.js]. *)
Theorem filename_part_drops_extension (sep : ascii) (stem : string) :
  all_chars (fun c => negb (Ascii.eqb c sep)) ".js" = true ->
  directories sep (stem ++ ".js") = directories sep stem
  /\ filename_part sep (stem ++ ".js") = basename sep stem.
Proof.
  intros Hsep. unfold directories, filename_part, basename.
  rewrite (split_app_without_sep sep stem ".js" Hsep). split.
  - apply removelast_last.
  - rewrite last_last.
    change (-3)%Z with (- Z.of_nat (String.length ".js"))%Z.
    apply slice_without_suffix. simpl; lia.
Qed.

(** ** The rendered text *)

Lemma remove_quotes_clean (s : string) :
  all_chars (fun c => negb (Ascii.eqb c dquote)) (remove_quotes s) = true.
Proof.
  induction s as [|c s IH]; [reflexivity |]. cbn [remove_quotes].
  destruct (Ascii.eqb c dquote) eqn:Hc; [exact IH |].
  cbn [all_chars]. now rewrite Hc, IH.
Qed.

(** Whatever the keys and the leaves of the tree, the text handed to the
    rewriter contains no double quote. *)
Theorem greedyJson_has_no_quote (json : value) (text : string) :
  greedyJson json = Some text ->
  all_chars (fun c => negb (Ascii.eqb c dquote)) text = true.
Proof.
  unfold greedyJson. destruct (stringify "" (sortJson json)) as [quoted|]; [| discriminate].
  cbn [option_map]. intros [= <-]. apply remove_quotes_clean.
Qed.

(** ** The further properties at concrete inputs *)

(** The leaf of [overview.js] gives way to the directory [overview]. *)
Lemma handleConflicts_relocates_witness :
  exists ps',
    handleConflicts "Js" (VObj [("overview", VStr "require('./overview.js')")]) "overview"
    = Ok (VObj ps')
    /\ obj_lookup "overview" ps' = Some (VObj [])
    /\ obj_lookup ("overview" ++ "Js") ps' = Some (VStr "require('./overview.js')")
    /\ (forall k, k <> "overview" -> k <> "overview" ++ "Js" ->
                  obj_lookup k ps'
                  = obj_lookup k [("overview", VStr "require('./overview.js')")])
    /\ (forall k, In k (keys [("overview", VStr "require('./overview.js')")]) ->
                  In k (keys ps')).
Proof.
  apply (@handleConflicts_relocates "Js"
           [("overview", VStr "require('./overview.js')")] "overview"
           "require('./overview.js')");
    [reflexivity | reflexivity | discriminate | discriminate].
Defined.

(** The same leaf with an empty conflict marker. *)
Lemma handleConflicts_empty_marker_witness :
  handleConflicts "" (VObj [("overview", VStr "require('./overview.js')")]) "overview"
  = Ok (VObj (obj_replace "overview" (VObj [])
                [("overview", VStr "require('./overview.js')")])).
Proof.
  apply (@handleConflicts_empty_marker
           [("overview", VStr "require('./overview.js')")] "overview"
           "require('./overview.js')"); reflexivity.
Defined.

(** [search/account.page.js] inserted twice into a tree that holds a leaf at
    [search]. *)
Lemma filenameToJson_twice_witness :
  exists t',
    filenameToJson "/" "Js" lodash_camelCase
      (VObj [("search", VStr "require('./search.js')")]) "search/account.page.js" = Ok t'
    /\ filenameToJson "/" "Js" lodash_camelCase t' "search/account.page.js" = Ok t'.
Proof.
  apply (@filenameToJson_twice "/" "Js" lodash_camelCase
           (VObj [("search", VStr "require('./search.js')")]) "search/account.page.js");
    reflexivity.
Defined.

(** [search/a.js] inserted next to the leaf of [util.js]. *)
Lemma filenameToJson_frame_witness :
  exists ps',
    VObj [("util", VStr "require('./util.js')");
          ("search", VObj [("a", VStr "require('./search/a.js')")])] = VObj ps'
    /\ frame (touched_keys "/" "Js" lodash_camelCase "search/a.js")
         [("util", VStr "require('./util.js')")] ps'.
Proof.
  apply (@filenameToJson_frame "/" "Js" lodash_camelCase
           [("util", VStr "require('./util.js')")] "search/a.js").
  vm_compute. reflexivity.
Defined.

(** [a/b-c/d.js] inserted where [a] holds a leaf. *)
Lemma filenameToJson_through_leaf_witness :
  filenameToJson "/" "Js" lodash_camelCase
    (VObj [("a", VStr "require('./a.js')")]) "a/b-c/d.js" = Throw TypeError.
Proof.
  apply (@filenameToJson_through_leaf "/" "Js" lodash_camelCase
           [("a", VStr "require('./a.js')")] "a/b-c/d.js" "a" "b-c" []
           "require('./a.js')");
    reflexivity.
Defined.

(** [zeta/b.js] inserted before [alpha], then sorted. *)
Lemma inserted_leaf_survives_sort_witness :
  exists t',
    filenameToJson "/" "Js" lodash_camelCase
      (VObj [("zeta", VObj []); ("alpha", VObj [])]) "zeta/b.js" = Ok t'
    /\ lookup_path (sortJson t') ["zeta"; "b"] = Ok (VStr "require('./zeta/b.js')").
Proof.
  apply (@inserted_leaf_survives_sort "/" "Js" lodash_camelCase
           (VObj [("zeta", VObj []); ("alpha", VObj [])]) "zeta/b.js");
    reflexivity.
Defined.

(** The leaf of [zeta/b.js] in a tree that enumerates [zeta] before [alpha]. *)
Lemma own_path_sortJson_witness :
  own_path
    (sortJson (VObj [("zeta", VObj [("b", VStr "require('./zeta/b.js')")]);
                     ("alpha", VObj [])]))
    ["zeta"; "b"]
  = Some (VStr "require('./zeta/b.js')").
Proof.
  exact (@own_path_sortJson ["zeta"; "b"]
           (VObj [("zeta", VObj [("b", VStr "require('./zeta/b.js')")]);
                  ("alpha", VObj [])]) eq_refl).
Defined.

(** A node with two leaves in descending order and its sorted form. *)
Lemma sortJson_only_reorders_witness :
  same_tree
    (VObj [("b", VStr "require('./b.js')"); ("a", VStr "require('./a.js')")])
    (VObj [("a", VStr "require('./a.js')"); ("b", VStr "require('./b.js')")]).
Proof.
  exact (@sortJson_only_reorders
           (VObj [("b", VStr "require('./b.js')"); ("a", VStr "require('./a.js')")])
           eq_refl).
Defined.

(** Two enumeration orders of the same two leaves. *)
Lemma sortJson_canonical_witness :
  sortJson (VObj [("b", VStr "require('./b.js')"); ("a", VStr "require('./a.js')")])
  = sortJson (VObj [("a", VStr "require('./a.js')"); ("b", VStr "require('./b.js')")]).
Proof.
  apply sortJson_canonical. constructor.
  - intros k. simpl. tauto.
  - intros k v v'. cbn [obj_lookup].
    destruct (String.eqb_spec "b" k) as [<- | Hb].
    + cbn. intros [= <-] [= <-]. now constructor.
    + destruct (String.eqb_spec "a" k) as [<- | Ha]; [| discriminate].
      intros [= <-] [= <-]. now constructor.
Defined.

(** The header line of the generated file holds no pair. *)
Lemma convert_without_require_witness :
  convertToLazyRequireJson "module.exports = {};" = "module.exports = {};".
Proof.
  apply convert_without_require. intros H. apply matches_literal_spec in H.
  discriminate H.
Defined.

(** One indented line of the rendering, followed by a comma and a newline. *)
Lemma convert_pair_in_context_witness :
  convertToLazyRequireJson
    ("    " ++ "accountPage" ++ ": require('./" ++ "search/account.page.js" ++ "')" ++ ",")
  = "    " ++ getter "accountPage" "search/account.page.js" ++ convertToLazyRequireJson ",".
Proof.
  apply (convert_pair_in_context "    " "accountPage" "search/account.page.js" ",");
    solve [reflexivity | discriminate].
Defined.

(** A file below the scanned directory. *)
Lemma on_file_inserts_relative_witness :
  on_file "/" "Js" lodash_camelCase shouldBeIndexed "/home/pages" (VObj [])
    ("/home/pages" ++ "/" ++ "search/account.page.js")
  = filenameToJson "/" "Js" lodash_camelCase (VObj []) "search/account.page.js".
Proof.
  apply (@on_file_inserts_relative "/" "Js" lodash_camelCase shouldBeIndexed
           "/home/pages" "search/account.page.js" (VObj [])).
  - discriminate.
  - intros H. apply matches_literal_spec in H. discriminate H.
  - reflexivity.
Defined.

(** A file that is not below the scanned directory. *)
Lemma on_file_outside_directory_witness :
  on_file "/" "Js" lodash_camelCase shouldBeIndexed "/home/pages" (VObj [])
    "/srv/other/account.page.js" = Throw TypeError.
Proof.
  apply (@on_file_outside_directory "/" "Js" lodash_camelCase shouldBeIndexed
           "/home/pages" "/srv/other/account.page.js" (VObj [])).
  - discriminate.
  - intros H. apply matches_literal_spec in H. discriminate H.
  - reflexivity.
Defined.

(** [search/results/account.table.js] inserted below an existing [search]. *)
Lemma filenameToJson_trie_witness :
  filenameToJson "/" "Js" lodash_camelCase
    (VObj [("search", VObj [("accountPage", VStr "require('./search/account.page.js')")])])
    "search/results/account.table.js"
  = Ok (VObj (trie_insert ["search"; "results"] "accountTable"
                (VStr "require('./search/results/account.table.js')")
                [("search", VObj [("accountPage",
                                   VStr "require('./search/account.page.js')")])]))
  /\ leaf_at (VObj (trie_insert ["search"; "results"] "accountTable"
                      (VStr "require('./search/results/account.table.js')")
                      [("search", VObj [("accountPage",
                                         VStr "require('./search/account.page.js')")])]))
             ["search"; "results"; "accountTable"]
     = Some "require('./search/results/account.table.js')".
Proof.
  apply (@filenameToJson_trie "/" "Js" lodash_camelCase
           [("search", VObj [("accountPage", VStr "require('./search/account.page.js')")])]
           "search/results/account.table.js");
    reflexivity.
Defined.

(** The files of the example in the documentation of [go]. *)
Lemma build_tree_holds_every_leaf_witness :
  exists ps,
    build_tree "/" "Js" lodash_camelCase
      ["search/account.page.js"; "search/results/account.table.js"; "util.js"] = Ok (VObj ps)
    /\ (forall pos x,
           leaf_at (VObj ps) pos = Some x
           <-> exists f,
                 In f ["search/account.page.js"; "search/results/account.table.js"; "util.js"]
                 /\ pos = leaf_position "/" lodash_camelCase f /\ x = require_expr f)
    /\ (forall f,
           In f ["search/account.page.js"; "search/results/account.table.js"; "util.js"] ->
           lookup_path (VObj ps) (leaf_position "/" lodash_camelCase f)
           = Ok (VStr (require_expr f))).
Proof.
  apply (@build_tree_holds_every_leaf "/" "Js" lodash_camelCase
           ["search/account.page.js"; "search/results/account.table.js"; "util.js"]);
    vm_compute; reflexivity.
Defined.

(** The same files in the reverse order. *)
Lemma build_tree_order_independent_witness :
  exists t t',
    build_tree "/" "Js" lodash_camelCase
      ["search/account.page.js"; "search/results/account.table.js"; "util.js"] = Ok t
    /\ build_tree "/" "Js" lodash_camelCase
         (rev ["search/account.page.js"; "search/results/account.table.js"; "util.js"])
       = Ok t'
    /\ sortJson t = sortJson t'.
Proof.
  apply (@build_tree_order_independent "/" "Js" lodash_camelCase
           ["search/account.page.js"; "search/results/account.table.js"; "util.js"]
           (rev ["search/account.page.js"; "search/results/account.table.js"; "util.js"])).
  - vm_compute. reflexivity.
  - vm_compute. reflexivity.
  - apply Permutation_rev.
Defined.

(** The path [search/account.page.js]. *)
Lemma filename_part_drops_extension_witness :
  directories "/" ("search/account.page" ++ ".js") = directories "/" "search/account.page"
  /\ filename_part "/" ("search/account.page" ++ ".js") = basename "/" "search/account.page".
Proof.
  apply (filename_part_drops_extension "/" "search/account.page"). reflexivity.
Defined.

(** The rendering of a tree with one leaf. *)
Lemma greedyJson_has_no_quote_witness :
  all_chars (fun c => negb (Ascii.eqb c dquote))
    ("{" ++ newline ++ "    util: require('./util.js')" ++ newline ++ "}") = true.
Proof.
  apply (greedyJson_has_no_quote (VObj [("util", VStr "require('./util.js')")])).
  vm_compute. reflexivity.
Defined.
